(** * ContactX: embedding maintenance and semantic search

    A shallow embedding of the two edge functions [generate-embeddings]
    and [semantic-search] and of the SQL routines they call
    ([generate_embedding_content], [find_similar_contacts], the
    [contact_embeddings] table), followed by the properties of the
    embedding life cycle.

    Conventions.
    - A table is the list of its rows, in physical order. [ORDER BY] is
      modelled by a stable sort; the executor promises no order among
      rows of equal key, so a property that depends on the order of rows
      is stated for keys without ties.
    - UUIDs and texts are strings; a nullable column is an [option].
    - Scores and distances are rationals; the distance operator of the
      vector extension, the digest primitive, the HTTP call to the model
      provider, the token check and the errors of a write statement other
      than a violated UNIQUE constraint are supplied by the platform and
      are fields of [World].
    - A text is the string of its UTF-8 bytes; JavaScript counts a string
      in UTF-16 code units.
    - A JavaScript [async] function is a computation in the monad [M]:
      it threads the state of the request (the [contact_embeddings]
      table, the [results] object, the log of external calls) and may
      throw; mutations made before a throw stay visible.
    - Reads issued through the database client return their data.
    - A request runs alone: nothing else writes to the tables while it
      runs. *)

From Stdlib Require Import String Ascii List Bool Arith ZArith QArith Lia.
From Stdlib Require Import Sorted Permutation.
From Stdlib Require Import Strings.Byte.
Import ListNotations.

Local Close Scope Q_scope.
Local Open Scope list_scope.
Local Open Scope string_scope.

(* ------------------------------------------------------------------ *)
(** ** Relational helpers *)

Module Sql.

(** The non-NULL members of a list of nullable values. *)
Fixpoint non_null {A : Type} (l : list (option A)) : list A :=
  match l with
  | [] => []
  | Some a :: l' => a :: non_null l'
  | None :: l' => non_null l'
  end.

(** [CONCAT_WS(sep, a1, ..., an)]: NULL arguments are skipped. *)
Definition concat_ws (sep : string) (args : list (option string)) : string :=
  String.concat sep (non_null args).

(** [string_agg(col, sep)] over non-NULL values: NULL on no input. *)
Definition string_agg (sep : string) (vals : list string) : option string :=
  match vals with
  | [] => None
  | _ => Some (String.concat sep vals)
  end.

(** [ORDER BY]: a stable insertion sort on the key order [le]. Rows of
    equal key stay in table order here; the executor may return them in
    any order. *)
Fixpoint insert_row {A : Type} (le : A -> A -> bool) (x : A) (l : list A)
  : list A :=
  match l with
  | [] => [x]
  | y :: l' => if le x y then x :: l else y :: insert_row le x l'
  end.

Definition order_by {A : Type} (le : A -> A -> bool) (l : list A) : list A :=
  fold_right (insert_row le) [] l.

(** [A JOIN B ON cond]. *)
Definition join {A B : Type} (on : A -> B -> bool) (la : list A) (lb : list B)
  : list (A * B) :=
  flat_map (fun a => map (fun b => (a, b)) (filter (on a) lb)) la.

(** [A LEFT JOIN B ON cond]: an unmatched left row is kept with NULLs. *)
Definition left_join {A B : Type} (on : A -> B -> bool)
           (la : list A) (lb : list B) : list (A * option B) :=
  flat_map (fun a =>
              match filter (on a) lb with
              | [] => [(a, None)]
              | bs => map (fun b => (a, Some b)) bs
              end) la.

(** [SELECT ... INTO v]: the first row, NULL when there is none. *)
Definition select_into {A : Type} (rows : list A) : option A := hd_error rows.

Definition is_null {A : Type} (v : option A) : bool :=
  match v with None => true | Some _ => false end.

(** Column types. *)
Inductive type :=
| uuid
| text
| numeric
| double_precision.

Definition type_eqb (a b : type) : bool :=
  match a, b with
  | uuid, uuid | text, text | numeric, numeric
  | double_precision, double_precision => true
  | _, _ => false
  end.

Fixpoint same_types (declared actual : list type) : bool :=
  match declared, actual with
  | [], [] => true
  | d :: declared', a :: actual' => type_eqb d a && same_types declared' actual'
  | _, _ => false
  end.

(** The message of SQLSTATE 42804 (datatype mismatch). *)
Definition structure_mismatch : string :=
  "structure of query does not match function result type".

(** [RETURN QUERY] in a PL/pgSQL function that RETURNS TABLE: the column
    types of the query are compared with the declared ones, without any
    cast; when they differ the statement raises and no row of the query
    is returned, whatever the query would yield. *)
Definition return_query {A : Type} (declared actual : list type)
           (rows : string + list A) : string + list A :=
  if same_types declared actual then rows else inl structure_mismatch.

End Sql.

(* ------------------------------------------------------------------ *)
(** ** Schema *)

Definition Uuid := string.
Definition Vector := list Q.

Record Contact := mkContact {
  c_id : Uuid;
  c_user_id : Uuid;
  first_name : string;
  last_name : option string;
  company : option string;
  job_title : option string;
  how_we_met : option string;
  deleted_at : option Z
}.

(** [contact_metadata]; [interests] holds the text form of the array. *)
Record ContactMetadata := mkContactMetadata {
  cm_contact_id : Uuid;
  location : option string;
  interests : option string
}.

Record Note := mkNote {
  n_contact_id : Uuid;
  n_content : string;
  n_created_at : Z
}.

Record Tag := mkTag {
  t_id : Uuid;
  t_name : string
}.

Record ContactTag := mkContactTag {
  ct_contact_id : Uuid;
  ct_tag_id : Uuid
}.

(** A row of [contact_embeddings] (surrogate key and timestamps are
    never read by the code and are left out). *)
Record ContactEmbedding := mkContactEmbedding {
  ce_contact_id : Uuid;
  ce_user_id : Uuid;
  embedding : Vector;
  content_hash : string;
  source_text : option string;
  model_version : option string
}.

(** The tables the embedding pipeline only reads. *)
Record Database := mkDatabase {
  contacts : list Contact;
  contact_metadata : list ContactMetadata;
  notes : list Note;
  tags : list Tag;
  contact_tags : list ContactTag
}.

(** The row returned by [find_similar_contacts]. *)
Record SimilarContact := mkSimilarContact {
  sc_contact_id : Uuid;
  similarity : Q;
  sc_first_name : string;
  sc_last_name : option string;
  sc_company : option string;
  sc_job_title : option string
}.

(* ------------------------------------------------------------------ *)
(** ** The platform *)

(** What [fetch] resolves to: the [ok] flag, the status text, and what
    reading [data.data[0].embedding] off the body gives (the message of
    the exception it raises, or the vector). *)
Record HttpResponse := mkHttpResponse {
  ok : bool;
  statusText : string;
  body_embedding : string + Vector
}.

(** The fields of an upsert into [contact_embeddings]. *)
Record EmbeddingPayload := mkEmbeddingPayload {
  p_contact_id : Uuid;
  p_user_id : Uuid;
  p_embedding : Vector;
  p_content_hash : string;
  p_source_text : string
}.

Record World := mkWorld {
  (** [crypto.subtle.digest('SHA-256', data)] *)
  sha256 : list byte -> list byte;
  (** [fetch] to the embeddings endpoint with [input: text]; [inl] is
      the message of a rejected request. *)
  fetch_embeddings : string -> string + HttpResponse;
  (** The error, if any, with which an upsert of the payload into the
      given table fails for a reason other than a second row for a
      contact (a foreign key, the dimension of the vector, the
      transport). *)
  upsert_error : list ContactEmbedding -> EmbeddingPayload -> option string;
  (** The [<=>] operator (cosine distance). *)
  cosine_distance : Vector -> Vector -> Q;
  (** [supabase.auth.getUser(jwt)]: the user id of a valid token. *)
  getUser : string -> option Uuid
}.

(* ------------------------------------------------------------------ *)
(** ** [generate_embedding_content] (migration 003) *)

Definition contact_line (row : Contact * option ContactMetadata) : string :=
  let (c, cm) := row in
  Sql.concat_ws " "
    [ Some (first_name c); last_name c; company c; job_title c; how_we_met c;
      match cm with Some m => location m | None => None end;
      match cm with Some m => interests m | None => None end ].

Definition newest_first (a b : Note) : bool :=
  (n_created_at b <=? n_created_at a)%Z.

Definition generate_embedding_content (db : Database) (p_contact_id : Uuid)
  : string :=
  let v_content :=
    Sql.select_into
      (map contact_line
         (filter (fun row => String.eqb (c_id (fst row)) p_contact_id)
            (Sql.left_join
               (fun c cm => String.eqb (cm_contact_id cm) (c_id c))
               (contacts db) (contact_metadata db)))) in
  let v_notes :=
    Sql.string_agg " "
      (map n_content
         (firstn 5
            (Sql.order_by newest_first
               (filter (fun n => String.eqb (n_contact_id n) p_contact_id)
                  (notes db))))) in
  let v_tags :=
    Sql.string_agg " "
      (map (fun row => t_name (snd row))
         (filter (fun row => String.eqb (ct_contact_id (fst row)) p_contact_id)
            (Sql.join (fun ct t => String.eqb (ct_tag_id ct) (t_id t))
               (contact_tags db) (tags db)))) in
  Sql.concat_ws " " [v_content; v_notes; v_tags].

(* ------------------------------------------------------------------ *)
(** ** [find_similar_contacts] (migration 003) *)

Section FindSimilar.
Variable w : World.

Definition distance_to (q : Vector) (row : ContactEmbedding * Contact) : Q :=
  cosine_distance w (embedding (fst row)) q.

Definition similarity_to (q : Vector) (row : ContactEmbedding * Contact) : Q :=
  (1 - distance_to q row)%Q.

Definition similar_where (p_user_id : Uuid) (q : Vector) (threshold : Q)
           (row : ContactEmbedding * Contact) : bool :=
  String.eqb (ce_user_id (fst row)) p_user_id
  && Sql.is_null (deleted_at (snd row))
  && Qle_bool threshold (similarity_to q row).

Definition similar_select (q : Vector) (row : ContactEmbedding * Contact)
  : SimilarContact :=
  let (ce, c) := row in
  mkSimilarContact (c_id c) (similarity_to q row)
                   (first_name c) (last_name c) (company c) (job_title c).

(** The rows the query keeps, before projection: the qualifying rows by
    ascending distance, cut at the limit. This is the exact plan. A scan
    of the ivfflat index on [embedding] is approximate and may pass over
    qualifying rows; what is proved of these rows below (threshold,
    order, number, scope) holds of every such selection. *)
Definition similar_rows (db : Database) (tbl : list ContactEmbedding)
           (p_user_id : Uuid) (q : Vector) (p_limit : Z) (threshold : Q)
  : list (ContactEmbedding * Contact) :=
  firstn (Z.to_nat p_limit)
    (Sql.order_by (fun a b => Qle_bool (distance_to q a) (distance_to q b))
       (filter (similar_where p_user_id q threshold)
          (Sql.join (fun ce c => String.eqb (ce_contact_id ce) (c_id c))
             tbl (contacts db)))).

(** The SELECT of the function body, projected. A negative [LIMIT] is a
    run-time error of the query. *)
Definition similar_query (db : Database) (tbl : list ContactEmbedding)
           (p_user_id : Uuid) (p_query_embedding : Vector)
           (p_limit : Z) (p_similarity_threshold : Q)
  : string + list SimilarContact :=
  if (p_limit <? 0)%Z then inl "LIMIT must not be negative"
  else inr (map (similar_select p_query_embedding)
              (similar_rows db tbl p_user_id p_query_embedding
                 p_limit p_similarity_threshold)).

(** The columns of [RETURNS TABLE (contact_id UUID, similarity NUMERIC,
    first_name TEXT, last_name TEXT, company TEXT, job_title TEXT)]. *)
Definition find_similar_returns_table : list Sql.type :=
  [Sql.uuid; Sql.numeric; Sql.text; Sql.text; Sql.text; Sql.text].

(** The columns of the SELECT: [<=>] yields [double precision], and so
    does [1 - (ce.embedding <=> p_query_embedding)]. *)
Definition find_similar_select_list : list Sql.type :=
  [Sql.uuid; Sql.double_precision; Sql.text; Sql.text; Sql.text; Sql.text].

(** The function: [RETURN QUERY SELECT ...]. *)
Definition find_similar_contacts (db : Database) (tbl : list ContactEmbedding)
           (p_user_id : Uuid) (p_query_embedding : Vector)
           (p_limit : Z) (p_similarity_threshold : Q)
  : string + list SimilarContact :=
  Sql.return_query find_similar_returns_table find_similar_select_list
    (similar_query db tbl p_user_id p_query_embedding
       p_limit p_similarity_threshold).

End FindSimilar.

(* ------------------------------------------------------------------ *)
(** ** JavaScript values and strings *)

Module Js.

(** A value read off a parsed JSON body ([JsUndefined]: property absent;
    [JsObject]: an array or an object). *)
Inductive Value :=
| JsUndefined
| JsNull
| JsBoolean (b : bool)
| JsNumber (q : Q)
| JsString (s : string)
| JsObject.

(** [!v] *)
Definition not (v : Value) : bool :=
  match v with
  | JsUndefined | JsNull => true
  | JsBoolean b => negb b
  | JsNumber q => Qeq_bool q 0%Q
  | JsString s => String.eqb s ""
  | JsObject => false
  end.

(** [typeof v] *)
Definition typeof (v : Value) : string :=
  match v with
  | JsUndefined => "undefined"
  | JsNull => "object"
  | JsBoolean _ => "boolean"
  | JsNumber _ => "number"
  | JsString _ => "string"
  | JsObject => "object"
  end.

(** [s.replace(pat, rep)] with a string pattern: the first occurrence. *)
Definition replace (pat rep s : string) : string :=
  match String.index 0 pat s with
  | Some i =>
      String.substring 0 i s ++ rep
      ++ String.substring (i + String.length pat)
           (String.length s - (i + String.length pat)) s
  | None => s
  end.

(** The UTF-16 code units of the character that a byte of UTF-8 begins:
    none for a continuation byte, two for the first byte of a four-byte
    sequence (a character outside the basic plane), one otherwise. *)
Definition utf16_units (c : ascii) : nat :=
  let n := N_of_ascii c in
  if (n <? 128)%N then 1
  else if (n <? 192)%N then 0
  else if (n <? 240)%N then 1
  else 2.

(** [s.length] *)
Fixpoint length (s : string) : nat :=
  match s with
  | EmptyString => 0
  | String c s' => utf16_units c + length s'
  end.

(** The lead surrogate of the character whose four-byte sequence starts
    with [b0] and goes on with [rest], in the three-byte form of an
    unpaired surrogate. *)
Definition lead_surrogate (b0 : ascii) (rest : string) : string :=
  match rest with
  | String b1 (String b2 _) =>
      let x :=
        ((N_of_ascii b0 mod 8) * 256 + (N_of_ascii b1 mod 64) * 4
         + (N_of_ascii b2 mod 64) / 16 - 64)%N in
      String (ascii_of_N 237)
        (String (ascii_of_N (160 + (x / 64) mod 16))
           (String (ascii_of_N (128 + x mod 64)) EmptyString))
  | _ => EmptyString
  end.

(** [s.substring(0, n)]: the first [n] code units. A character of two
    units that straddles the cut leaves its lead surrogate. *)
Fixpoint substring0 (n : nat) (s : string) : string :=
  match s with
  | EmptyString => EmptyString
  | String c s' =>
      match utf16_units c with
      | 0 => String c (substring0 n s')
      | 1 =>
          match n with
          | 0 => EmptyString
          | S n' => String c (substring0 n' s')
          end
      | _ =>
          match n with
          | 0 => EmptyString
          | 1 => lead_surrogate c s'
          | S (S n') => String c (substring0 n' s')
          end
      end
  end.

Fixpoint repeat_string (n : nat) (c : string) : string :=
  match n with
  | O => ""
  | S n' => c ++ repeat_string n' c
  end.

(** [s.padStart(n, c)] for a one-character [c]. *)
Definition padStart (n : nat) (c : string) (s : string) : string :=
  repeat_string (n - String.length s) c ++ s.

Definition hex_digit (n : N) : string :=
  String.substring (N.to_nat n) 1 "0123456789abcdef".

(** [b.toString(16)] for a byte. *)
Definition toString16 (b : byte) : string :=
  let n := Byte.to_N b in
  if (n <? 16)%N then hex_digit n
  else hex_digit (n / 16)%N ++ hex_digit (n mod 16)%N.

(** [new TextEncoder().encode(s)] *)
Definition encode (s : string) : list byte := list_byte_of_string s.

(** [a || b] on strings. *)
Definition or_string (a b : string) : string :=
  if String.eqb a "" then b else a.

End Js.

(* ------------------------------------------------------------------ *)
(** ** The request monad *)

Record Results := mkResults {
  processed : nat;
  created : nat;
  updated : nat;
  skipped : nat;
  errors : list string
}.

(** External calls, in the order they are made. *)
Inductive Event :=
| EvCompose (contact_id : Uuid)
| EvSelectEmbedding (contact_id : Uuid)
| EvProvider (text : string)
| EvUpsert (payload : EmbeddingPayload)
| EvFindSimilar (user_id : Uuid).

Record State := mkState {
  table : list ContactEmbedding;
  results : Results;
  calls : list Event
}.

Definition M (A : Type) : Type := State -> (string + A) * State.

Definition ret {A : Type} (a : A) : M A := fun st => (inr a, st).

Definition bind {A B : Type} (c : M A) (k : A -> M B) : M B :=
  fun st =>
    match c st with
    | (inr a, st') => k a st'
    | (inl message, st') => (inl message, st')
    end.

Definition throw {A : Type} (message : string) : M A :=
  fun st => (inl message, st).

Definition try_catch {A : Type} (c : M A) (handler : string -> M A) : M A :=
  fun st =>
    match c st with
    | (inr a, st') => (inr a, st')
    | (inl message, st') => handler message st'
    end.

Definition lift_result {A : Type} (r : string + A) : M A :=
  fun st => (r, st).

Definition log (e : Event) : M unit :=
  fun st => (inr tt, mkState (table st) (results st) (calls st ++ [e])%list).

Definition update_results (f : Results -> Results) : M unit :=
  fun st => (inr tt, mkState (table st) (f (results st)) (calls st)).

Definition read_table : M (list ContactEmbedding) :=
  fun st => (inr (table st), st).

Definition write_table (tbl : list ContactEmbedding) : M unit :=
  fun st => (inr tt, mkState tbl (results st) (calls st)).

Declare Scope js_scope.
Delimit Scope js_scope with js.
Notation "x <- c ;; k" := (bind c (fun x => k))
  (at level 61, c at next level, right associativity) : js_scope.
Notation "c ;; k" := (bind c (fun _ => k))
  (at level 61, right associativity) : js_scope.
Local Open Scope js_scope.

(** [for (const x of l) body] *)
Fixpoint for_of {A : Type} (l : list A) (body : A -> M unit) : M unit :=
  match l with
  | [] => ret tt
  | x :: l' => body x ;; for_of l' body
  end.

(** [results.skipped++] and its siblings. *)
Definition incr_skipped (r : Results) : Results :=
  mkResults (processed r) (created r) (updated r) (S (skipped r)) (errors r).
Definition incr_created (r : Results) : Results :=
  mkResults (processed r) (S (created r)) (updated r) (skipped r) (errors r).
Definition incr_updated (r : Results) : Results :=
  mkResults (processed r) (created r) (S (updated r)) (skipped r) (errors r).
Definition incr_processed (r : Results) : Results :=
  mkResults (S (processed r)) (created r) (updated r) (skipped r) (errors r).
(** [results.errors.push(e)] *)
Definition push_error (e : string) (r : Results) : Results :=
  mkResults (processed r) (created r) (updated r) (skipped r) (errors r ++ [e])%list.

Definition empty_results : Results := mkResults 0 0 0 0 [].

(* ------------------------------------------------------------------ *)
(** ** The [contact_embeddings] store *)

Definition default_model_version : string := "text-embedding-ada-002".

Definition same_contact (cid : Uuid) (r : ContactEmbedding) : bool :=
  String.eqb (ce_contact_id r) cid.

(** The row a payload inserts (column default for [model_version]). *)
Definition inserted_row (p : EmbeddingPayload) : ContactEmbedding :=
  mkContactEmbedding (p_contact_id p) (p_user_id p) (p_embedding p)
    (p_content_hash p) (Some (p_source_text p)) (Some default_model_version).

(** The message of SQLSTATE 23505 for the UNIQUE constraint on
    [contact_id]. *)
Definition duplicate_contact_id : string :=
  "duplicate key value violates unique constraint "
  ++ String "034"%char
       ("contact_embeddings_contact_id_key" ++ String "034"%char EmptyString).

(** What [.upsert(payload)] returns. The call names no [onConflict] and
    the payload no [id], so the statement is an INSERT whose conflict
    target is the primary key [id]; the new row draws a new [id], that
    target never matches, and a row for a contact that already has one
    violates the UNIQUE constraint on [contact_id]: the statement is
    rejected, nothing is replaced. *)
Definition store_verdict (w : World) (tbl : list ContactEmbedding)
           (p : EmbeddingPayload) : option string :=
  match upsert_error w tbl p with
  | Some message => Some message
  | None =>
      if existsb (same_contact (p_contact_id p)) tbl
      then Some duplicate_contact_id
      else None
  end.

(** The table after an accepted upsert: the new row is added. *)
Definition upsert_rows (tbl : list ContactEmbedding) (p : EmbeddingPayload)
  : list ContactEmbedding :=
  (tbl ++ [inserted_row p])%list.

(** [.single()]: the row when the selection has exactly one. *)
Definition single {A : Type} (rows : list A) : option A :=
  match rows with
  | [r] => Some r
  | _ => None
  end.

(* ------------------------------------------------------------------ *)
(** ** Requests and responses *)

(** The request, after [req.json()] ([inl]: the message it throws). *)
Record EmbeddingsBody := mkEmbeddingsBody {
  contactId : option string;
  batchSize : option Z
}.

Record Request (B : Type) := mkRequest {
  method : string;
  authorization : option string;
  json : string + B
}.
Arguments mkRequest {B}.
Arguments method {B}.
Arguments authorization {B}.
Arguments json {B}.

Inductive ResponseBody :=
| ErrorBody (error : string)
| EmbeddingsBodyOk (success : bool) (r : Results)
| SearchBodyOk (success : bool) (query : string)
               (matches : list SimilarContact) (count : nat).

Record Response := mkResponse {
  status : nat;
  body : ResponseBody
}.

(* ------------------------------------------------------------------ *)
(** ** Edge function [generate-embeddings] *)

Section GenerateEmbeddings.
Variable w : World.
Variable db : Database.

(** [generateHash] *)
Definition generateHash (content : string) : string :=
  let data := Js.encode content in
  let hashArray := sha256 w data in
  String.concat "" (map (fun b => Js.padStart 2 "0" (Js.toString16 b)) hashArray).

(** [generateEmbedding], as a value: the thrown message or the vector. *)
Definition embedding_of (text : string) : string + Vector :=
  match fetch_embeddings w text with
  | inl message => inl message
  | inr response =>
      if negb (ok response)
      then inl ("OpenAI API error: " ++ statusText response)
      else body_embedding response
  end.

Definition generateEmbedding (text : string) : M Vector :=
  log (EvProvider text) ;; lift_result (embedding_of text).

(** [supabase.rpc('generate_embedding_content', { p_contact_id: cid })].
    The client is created with the service role key, so the routine reads
    every row: row-level policies do not apply to it. *)
Definition rpc_generate_embedding_content (cid : Uuid) : M string :=
  log (EvCompose cid) ;; ret (generate_embedding_content db cid).

(** [from('contact_embeddings').select(...).eq('contact_id', cid).single()] *)
Definition select_existing (cid : Uuid) : M (option ContactEmbedding) :=
  log (EvSelectEmbedding cid) ;;
  tbl <- read_table ;;
  ret (single (filter (same_contact cid) tbl)).

(** [from('contact_embeddings').upsert(payload)]: the returned error. *)
Definition upsert (p : EmbeddingPayload) : M (option string) :=
  log (EvUpsert p) ;;
  tbl <- read_table ;;
  match store_verdict w tbl p with
  | Some message => ret (Some message)
  | None => write_table (upsert_rows tbl p) ;; ret None
  end.

(** [existing && existing.content_hash === contentHash] *)
Definition up_to_date (existing : option ContactEmbedding) (contentHash : string)
  : bool :=
  match existing with
  | Some e => String.eqb (content_hash e) contentHash
  | None => false
  end.

(** The body of the [try] block of one iteration. *)
Definition embed_contact (userId cid : Uuid) : M unit :=
  content <- rpc_generate_embedding_content cid ;;
  if String.eqb content "" then update_results incr_skipped
  else
    let contentHash := generateHash content in
    existing <- select_existing cid ;;
    if up_to_date existing contentHash then update_results incr_skipped
    else
      embedding <- generateEmbedding content ;;
      upsertError <-
        upsert (mkEmbeddingPayload cid userId embedding contentHash
                  (Js.substring0 500 content)) ;;
      match upsertError with
      | Some message => update_results (push_error (cid ++ ": " ++ message))
      | None =>
          (match existing with
           | Some _ => update_results incr_updated
           | None => update_results incr_created
           end) ;;
          update_results incr_processed
      end.

(** One iteration: [try { ... } catch (error) { errors.push(...) }]. *)
Definition process_contact (userId cid : Uuid) : M unit :=
  try_catch (embed_contact userId cid)
    (fun message => update_results (push_error (cid ++ ": " ++ message))).

(** The loop over [contactIds]. *)
Definition process_contacts (userId : Uuid) (contactIds : list Uuid) : M unit :=
  for_of contactIds (process_contact userId).

(** A batch run on a stored table: the outcome, the table it leaves and
    the external calls it made. *)
Definition run_batch (userId : Uuid) (contactIds : list Uuid)
           (tbl : list ContactEmbedding) : (string + unit) * State :=
  process_contacts userId contactIds (mkState tbl empty_results []).

(** The ids of the batch sweep:
    [from('contacts').select('id').eq('user_id', userId)
       .is('deleted_at', null).limit(batchSize)]. *)
Definition select_contact_ids (userId : Uuid) (batch : Z) : list Uuid :=
  map c_id
    (firstn (Z.to_nat batch)
       (filter (fun c => String.eqb (c_user_id c) userId
                         && Sql.is_null (deleted_at c))
          (contacts db))).

Definition contact_ids_of (userId : Uuid) (b : EmbeddingsBody) : list Uuid :=
  match contactId b with
  | Some cid =>
      if String.eqb cid "" then
        select_contact_ids userId
          (match batchSize b with Some n => n | None => 50%Z end)
      else [cid]
  | None =>
      select_contact_ids userId
        (match batchSize b with Some n => n | None => 50%Z end)
  end.

(** The user of the request, or the early response. *)
Definition authenticate {B : Type} (req : Request B) : Response + Uuid :=
  if negb (String.eqb (method req) "POST")
  then inl (mkResponse 405 (ErrorBody "Method not allowed"))
  else
    match authorization req with
    | None => inl (mkResponse 401 (ErrorBody "Missing authorization"))
    | Some authHeader =>
        if String.eqb authHeader ""
        then inl (mkResponse 401 (ErrorBody "Missing authorization"))
        else
          match getUser w (Js.replace "Bearer " "" authHeader) with
          | None => inl (mkResponse 401 (ErrorBody "Unauthorized"))
          | Some userId => inr userId
          end
    end.

(** The outer [catch]: status 500. *)
Definition internal_error (message : string) : Response :=
  mkResponse 500 (ErrorBody (Js.or_string message "Internal server error")).

Definition serve_generate_embeddings (req : Request EmbeddingsBody)
  : M Response :=
  match authenticate req with
  | inl response => ret response
  | inr userId =>
      try_catch
        (b <- lift_result (json req) ;;
         process_contacts userId (contact_ids_of userId b) ;;
         (fun st => (inr (mkResponse 200 (EmbeddingsBodyOk true (results st))), st)))
        (fun message => ret (internal_error message))
  end.

End GenerateEmbeddings.

Arguments authenticate w {B} req.

(* ------------------------------------------------------------------ *)
(** ** Edge function [semantic-search] *)

Section SemanticSearch.
Variable w : World.
Variable db : Database.

Record SearchBody := mkSearchBody {
  query : Js.Value;
  limit : option Z;
  similarityThreshold : option Q
}.

(** The text of a value that passed the [typeof query === 'string'] test. *)
Definition query_text (v : Js.Value) : string :=
  match v with
  | Js.JsString s => s
  | _ => ""
  end.

(** [supabase.rpc('find_similar_contacts', {...})] *)
Definition rpc_find_similar_contacts (userId : Uuid) (embedding : Vector)
           (p_limit : Z) (p_similarity_threshold : Q)
  : M (string + list SimilarContact) :=
  log (EvFindSimilar userId) ;;
  tbl <- read_table ;;
  ret (find_similar_contacts w db tbl userId embedding
         p_limit p_similarity_threshold).

(** The file carries its own copy of [generateEmbedding], textually the
    one of [generate-embeddings]. *)
Definition serve_semantic_search (req : Request SearchBody) : M Response :=
  match authenticate w req with
  | inl response => ret response
  | inr userId =>
      try_catch
        (b <- lift_result (json req) ;;
         if Js.not (query b)
            || negb (String.eqb (Js.typeof (query b)) "string")
         then ret (mkResponse 400 (ErrorBody "Query is required"))
         else
           embedding <- generateEmbedding w (query_text (query b)) ;;
           searched <-
             rpc_find_similar_contacts userId embedding
               (match limit b with Some n => n | None => 10%Z end)
               (match similarityThreshold b with
                | Some t => t
                | None => (7 # 10)%Q
                end) ;;
           match searched with
           | inl message => throw ("Search error: " ++ message)
           | inr found =>
               ret (mkResponse 200
                      (SearchBodyOk true (query_text (query b)) found
                         (List.length found)))
           end)
        (fun message => ret (internal_error message))
  end.

End SemanticSearch.

(* ------------------------------------------------------------------ *)
(** ** Integrity constraints *)

(** [contact_id UUID NOT NULL UNIQUE] on [contact_embeddings]. *)
Definition unique_contact_id (tbl : list ContactEmbedding) : Prop :=
  NoDup (map ce_contact_id tbl).

(** The foreign keys of [notes] and [contact_tags] into [contacts]. *)
Definition references_contacts (db : Database) : Prop :=
  (forall n, In n (notes db) ->
             exists c, In c (contacts db) /\ c_id c = n_contact_id n)
  /\ (forall ct, In ct (contact_tags db) ->
                 exists c, In c (contacts db) /\ c_id c = ct_contact_id ct).

(** The events of a log that reach the provider, and those that reach
    the embedding store. *)
Definition is_provider_call (e : Event) : bool :=
  match e with EvProvider _ => true | _ => false end.

Definition is_store_call (e : Event) : bool :=
  match e with
  | EvSelectEmbedding _ | EvUpsert _ | EvFindSimilar _ => true
  | _ => false
  end.

Definition provider_calls (l : list Event) : list Event :=
  filter is_provider_call l.

Definition store_calls (l : list Event) : list Event :=
  filter is_store_call l.

(* ------------------------------------------------------------------ *)
(** ** Vocabulary of the properties *)

(** A row carries the columns of a payload. *)
Definition stored_from (p : EmbeddingPayload) (r : ContactEmbedding) : Prop :=
  ce_contact_id r = p_contact_id p
  /\ ce_user_id r = p_user_id p
  /\ embedding r = p_embedding p
  /\ content_hash r = p_content_hash p
  /\ source_text r = Some (p_source_text p).

(** Each iteration moves exactly one of the three buckets, by one. *)
Definition one_bucket (r r' : Results) : Prop :=
  (processed r' = S (processed r)
   /\ created r' + updated r' = S (created r + updated r)
   /\ skipped r' = skipped r /\ errors r' = errors r)
  \/ (skipped r' = S (skipped r)
      /\ processed r' = processed r /\ created r' = created r
      /\ updated r' = updated r /\ errors r' = errors r)
  \/ (exists e, errors r' = (errors r ++ [e])%list
      /\ processed r' = processed r /\ created r' = created r
      /\ updated r' = updated r /\ skipped r' = skipped r).

(** The payload of the last statement that returned no error, in a
    sequence of upserts paired with what each one returned. *)
Fixpoint last_accepted (pes : list (EmbeddingPayload * option string))
  : option EmbeddingPayload :=
  match pes with
  | [] => None
  | (p, e) :: rest =>
      match last_accepted rest with
      | Some q => Some q
      | None => match e with None => Some p | Some _ => None end
      end
  end.

(** The statement the store accepts, in a sequence of upserts for one
    contact run on a table: none when the contact has a row; otherwise
    the first payload the store has no objection to. *)
Definition first_accepted (w : World) (cid : Uuid) (tbl : list ContactEmbedding)
           (ps : list EmbeddingPayload) : option EmbeddingPayload :=
  if existsb (same_contact cid) tbl then None
  else find (fun p => Sql.is_null (upsert_error w tbl p)) ps.

(** The query is absent, the empty string, or not a string. *)
Definition invalid_query (v : Js.Value) : Prop :=
  match v with
  | Js.JsString s => s = ""
  | _ => True
  end.

Section Terms.
Variable w : World.
Variable db : Database.

(** What the iteration reads before it decides. *)
Definition content_of (cid : Uuid) : string := generate_embedding_content db cid.

Definition existing_of (cid : Uuid) (tbl : list ContactEmbedding)
  : option ContactEmbedding :=
  single (filter (same_contact cid) tbl).

Definition payload_of (userId cid : Uuid) (v : Vector) : EmbeddingPayload :=
  mkEmbeddingPayload cid userId v (generateHash w (content_of cid))
    (Js.substring0 500 (content_of cid)).

Definition fresh (cid : Uuid) (tbl : list ContactEmbedding) : bool :=
  up_to_date (existing_of cid tbl) (generateHash w (content_of cid)).

(** The five ways an iteration can go, as a step relation on states. *)
Inductive iteration (userId cid : Uuid) (st : State) : State -> Prop :=
| it_empty :
    content_of cid = "" ->
    iteration userId cid st
      (mkState (table st) (incr_skipped (results st))
         (calls st ++ [EvCompose cid])%list)
| it_fresh :
    content_of cid <> "" ->
    fresh cid (table st) = true ->
    iteration userId cid st
      (mkState (table st) (incr_skipped (results st))
         (calls st ++ [EvCompose cid; EvSelectEmbedding cid])%list)
| it_provider_error message :
    content_of cid <> "" ->
    fresh cid (table st) = false ->
    embedding_of w (content_of cid) = inl message ->
    iteration userId cid st
      (mkState (table st) (push_error (cid ++ ": " ++ message) (results st))
         (calls st ++ [EvCompose cid; EvSelectEmbedding cid;
                       EvProvider (content_of cid)])%list)
| it_store_error v message :
    content_of cid <> "" ->
    fresh cid (table st) = false ->
    embedding_of w (content_of cid) = inr v ->
    store_verdict w (table st) (payload_of userId cid v) = Some message ->
    iteration userId cid st
      (mkState (table st) (push_error (cid ++ ": " ++ message) (results st))
         (calls st ++ [EvCompose cid; EvSelectEmbedding cid;
                       EvProvider (content_of cid);
                       EvUpsert (payload_of userId cid v)])%list)
| it_written v :
    content_of cid <> "" ->
    fresh cid (table st) = false ->
    embedding_of w (content_of cid) = inr v ->
    store_verdict w (table st) (payload_of userId cid v) = None ->
    iteration userId cid st
      (mkState (upsert_rows (table st) (payload_of userId cid v))
         (incr_processed
            (match existing_of cid (table st) with
             | Some _ => incr_updated (results st)
             | None => incr_created (results st)
             end))
         (calls st ++ [EvCompose cid; EvSelectEmbedding cid;
                       EvProvider (content_of cid);
                       EvUpsert (payload_of userId cid v)])%list).

(** The state one iteration leaves, and the state the loop leaves. *)
Definition step (userId cid : Uuid) (st : State) : State :=
  snd (process_contact w db userId cid st).

Definition steps (userId : Uuid) (ids : list Uuid) (st : State) : State :=
  snd (process_contacts w db userId ids st).








(** A prior record of the contact holds the fingerprint of the text the
    composer produces now. *)
Definition fingerprint_stored (cid : Uuid) (tbl : list ContactEmbedding) : Prop :=
  exists r, In r tbl /\ ce_contact_id r = cid
            /\ content_hash r = generateHash w (content_of cid).

(** Nothing is left to do for the contact: it has no text, or its
    stored fingerprint is the one of its text. *)
Definition settled (cid : Uuid) (tbl : list ContactEmbedding) : Prop :=
  content_of cid = "" \/ fresh cid tbl = true.

(** The idempotence property as the specification words it: after a
    first run over [ids], a second run over the same ids on the table the
    first one left creates nothing, updates nothing and counts every id
    as skipped. *)
Definition idempotent_run (userId : Uuid) (ids : list Uuid)
           (tbl : list ContactEmbedding) : Prop :=
  let first := snd (run_batch w db userId ids tbl) in
  let second := snd (run_batch w db userId ids (table first)) in
  created (results second) = 0
  /\ updated (results second) = 0
  /\ skipped (results second) = List.length ids.

(** The joined rows that pass the WHERE clause of the search. *)
Definition qualifying (tbl : list ContactEmbedding) (p_user_id : Uuid)
           (q : Vector) (threshold : Q) : list (ContactEmbedding * Contact) :=
  filter (similar_where w p_user_id q threshold)
    (Sql.join (fun ce c => String.eqb (ce_contact_id ce) (c_id c))
       tbl (contacts db)).

(** A sequence of upsert statements, with the error each one returns. *)
Fixpoint upsert_each (ps : list EmbeddingPayload) : M (list (option string)) :=
  match ps with
  | [] => ret []
  | p :: ps' =>
      e <- upsert w p ;;
      es <- upsert_each ps' ;;
      ret (e :: es)
  end.

End Terms.

(* ------------------------------------------------------------------ *)
(** ** A sample installation *)

Module Sample.

Definition alice : Uuid := "alice".
Definition bob : Uuid := "bob".

Definition person (id owner name : string) (deleted : option Z) : Contact :=
  mkContact id owner name None None None None deleted.

(** Five contacts of alice, one of bob, and a soft-deleted one. *)
Definition db : Database :=
  mkDatabase
    [ person "c1" alice "Ann" None; person "c2" alice "Ben" None;
      person "c3" alice "Cat" None; person "c4" alice "Dan" None;
      person "c5" alice "Eve" None; person "b1" bob "Bruno" None;
      person "c6" alice "Zed" (Some 7%Z) ]
    [ mkContactMetadata "c2" (Some "Oslo") None ]
    [ mkNote "c1" "met at the fair" 3%Z; mkNote "c1" "likes tea" 5%Z ]
    [ mkTag "t1" "friend" ]
    [ mkContactTag "c1" "t1" ].

Fixpoint dot (u v : Vector) : Q :=
  match u, v with
  | x :: u', y :: v' => (x * y + dot u' v')%Q
  | _, _ => 0%Q
  end.

(** The vector the sample provider returns for a text: one of two
    vectors of norm 1. *)
Definition vector_of (text : string) : Vector :=
  if Nat.even (String.length text) then [3 # 5; 4 # 5]%Q else [4 # 5; 3 # 5]%Q.

Definition token_user (jwt : string) : option Uuid :=
  if String.eqb jwt "alice-token" then Some alice
  else if String.eqb jwt "bob-token" then Some bob
  else None.

(** A digest that echoes its input, a provider that is rate limited on
    the text "Cat", a store with no objection of its own to a write, and
    the cosine distance as it is on vectors of norm 1, which every vector
    of the sample is. *)
Definition world : World :=
  mkWorld
    (fun data => data)
    (fun text =>
       if String.eqb text "Cat"
       then inr (mkHttpResponse false "Too Many Requests" (inl ""))
       else inr (mkHttpResponse true "OK" (inr (vector_of text))))
    (fun _ _ => None)
    (fun u v => (1 - dot u v)%Q)
    token_user.

(** The same installation with a vector column of two dimensions. *)
Definition world_two_dimensions : World :=
  mkWorld (sha256 world) (fetch_embeddings world)
    (fun _ p => if Nat.eqb (List.length (p_embedding p)) 2 then None
                else Some "expected 2 dimensions")
    (cosine_distance world) (getUser world).

(** A store that already holds the third contact under its current
    fingerprint. *)
Definition stored_cat : list ContactEmbedding :=
  [ mkContactEmbedding "c3" alice (vector_of "Cat") "436174"
      (Some "Cat") (Some default_model_version) ].


(** A store with two records of alice, one of bob whose vector is the
    closest to the query, and one of alice's soft-deleted contact. *)
Definition sample_record (cid owner : Uuid) (v : Vector) : ContactEmbedding :=
  mkContactEmbedding cid owner v "00" None (Some default_model_version).

Definition sample_store : list ContactEmbedding :=
  [ sample_record "c1" alice [3 # 5; 4 # 5]%Q;
    sample_record "b1" bob [1; 0]%Q;
    sample_record "c2" alice [4 # 5; 3 # 5]%Q;
    sample_record "c6" alice [1; 0]%Q ].

Definition sample_query : Vector := [1; 0]%Q.

(** Three upserts for one contact, the last with a vector of three
    dimensions. *)
Definition three_upserts : list EmbeddingPayload :=
  [ mkEmbeddingPayload "c1" alice [1; 0]%Q "aa" "Ann";
    mkEmbeddingPayload "c1" alice [0; 1]%Q "bb" "Ann B";
    mkEmbeddingPayload "c1" alice [0; 1; 1]%Q "cc" "Ann C" ].

(** The request of a caller for one contact id, on an empty store. *)
Definition single_contact_request (token cid : string)
  : (string + Response) * State :=
  serve_generate_embeddings world db
    (mkRequest "POST" (Some ("Bearer " ++ token))
       (inr (mkEmbeddingsBody (Some cid) None)))
    (mkState [] empty_results []).

End Sample.

(* ------------------------------------------------------------------ *)
(** ** AI insights (migration 003) *)

Inductive insight_type :=
| follow_up_suggestion
| relationship_warning
| opportunity
| memory
| birthday_reminder
| networking_suggestion
| engagement_alert.

(** A row of [ai_insights]. Timestamps count seconds; the two flags
    have a default but no NOT NULL, so they are nullable. *)
Record AiInsight := mkAiInsight {
  ai_id : Uuid;
  ai_contact_id : Uuid;
  ai_user_id : Uuid;
  ai_insight_type : insight_type;
  ai_title : string;
  ai_content : string;
  ai_action_url : option string;
  ai_confidence_score : option Q;
  ai_model_version : option string;
  is_dismissed : option bool;
  is_acted_upon : option bool;
  acted_upon_at : option Z;
  ai_created_at : Z;
  expires_at : option Z
}.

(** [col = FALSE] in a WHERE clause: true only for a stored FALSE. *)
Definition is_false (v : option bool) : bool :=
  match v with
  | Some false => true
  | _ => false
  end.

(** [INTERVAL '30 days'], in seconds. *)
Definition thirty_days : Z := (30 * 86400)%Z.

(** The WHERE clause of the DELETE in [cleanup_expired_insights]. *)
Definition cleanup_where (now : Z) (i : AiInsight) : bool :=
  negb (Sql.is_null (expires_at i))
  && match expires_at i with
     | Some e => (e <? now - thirty_days)%Z
     | None => false
     end
  && is_false (is_acted_upon i).

(** [cleanup_expired_insights()]: the row count it returns and the table
    it leaves. *)
Definition cleanup_expired_insights (now : Z) (tbl : list AiInsight)
  : Z * list AiInsight :=
  (Z.of_nat (List.length (filter (cleanup_where now) tbl)),
   filter (fun i => negb (cleanup_where now i)) tbl).

(** A row of the view [active_ai_insights]: [ai.*] and three columns of
    the contact. *)
Record ActiveInsight := mkActiveInsight {
  av_insight : AiInsight;
  av_first_name : string;
  av_last_name : option string;
  av_company : option string
}.

Definition active_where (now : Z) (row : AiInsight * Contact) : bool :=
  is_false (is_dismissed (fst row))
  && match expires_at (fst row) with
     | None => true
     | Some e => (now <? e)%Z
     end
  && Sql.is_null (deleted_at (snd row)).

Definition latest_first (a b : AiInsight * Contact) : bool :=
  (ai_created_at (fst b) <=? ai_created_at (fst a))%Z.

(** The view [active_ai_insights], read at time [now]. *)
Definition active_ai_insights (now : Z) (db : Database) (tbl : list AiInsight)
  : list ActiveInsight :=
  map (fun row => mkActiveInsight (fst row) (first_name (snd row))
                    (last_name (snd row)) (company (snd row)))
    (Sql.order_by latest_first
       (filter (active_where now)
          (Sql.join (fun ai c => String.eqb (ai_contact_id ai) (c_id c))
             tbl (contacts db)))).

(* ------------------------------------------------------------------ *)
(** ** Vocabulary of the further properties *)

(** A request served on a stored table: the [results] object is new and
    nothing has been called yet. *)
Definition handle_generate_embeddings (w : World) (db : Database)
           (req : Request EmbeddingsBody) (tbl : list ContactEmbedding)
  : (string + Response) * State :=
  serve_generate_embeddings w db req (mkState tbl empty_results []).

Definition handle_semantic_search (w : World) (db : Database)
           (req : Request SearchBody) (tbl : list ContactEmbedding)
  : (string + Response) * State :=
  serve_semantic_search w db req (mkState tbl empty_results []).

(** The payloads of the upserts of a log. *)
Fixpoint upserts_of (l : list Event) : list EmbeddingPayload :=
  match l with
  | [] => []
  | EvUpsert p :: l' => p :: upserts_of l'
  | _ :: l' => upserts_of l'
  end.

(** The rejections that precede the body of both edge functions. *)
Definition rejection (r : Response) : Prop :=
  r = mkResponse 405 (ErrorBody "Method not allowed")
  \/ r = mkResponse 401 (ErrorBody "Missing authorization")
  \/ r = mkResponse 401 (ErrorBody "Unauthorized").

(** The characters [toString(16)] produces. *)
Definition hex_chars : list ascii := list_ascii_of_string "0123456789abcdef".

(** The primary key of [contacts]. *)
Definition unique_contact_key (db : Database) : Prop :=
  NoDup (map c_id (contacts db)).

(** The record's scope id is the scope id of the contact it belongs to. *)
Definition scope_matches_owner (db : Database) (r : ContactEmbedding) : Prop :=
  exists c, In c (contacts db) /\ c_id c = ce_contact_id r
            /\ c_user_id c = ce_user_id r.

(** The body asks for a sweep: no contact id, or an empty one. *)
Definition asks_sweep (b : EmbeddingsBody) : Prop :=
  contactId b = None \/ contactId b = Some "".

(** The size of the sweep: [batchSize = 50] by default. *)
Definition sweep_size (b : EmbeddingsBody) : Z :=
  match batchSize b with Some n => n | None => 50%Z end.

(** The contacts a sweep of the user may pick. *)
Definition sweepable (db : Database) (userId : Uuid) : list Contact :=
  filter (fun c => String.eqb (c_user_id c) userId && Sql.is_null (deleted_at c))
    (contacts db).

(** The two characters a byte of the digest becomes in [generateHash]. *)
Definition hex_byte (b : byte) : string := Js.padStart 2 "0" (Js.toString16 b).

Definition is_hex_char (c : ascii) : bool := existsb (Ascii.eqb c) hex_chars.

(** Reading hexadecimal back: the value of a digit, the byte of two
    digits, the bytes of a string of digits. *)
Fixpoint digit_index (c : ascii) (digits : list ascii) : option N :=
  match digits with
  | [] => None
  | d :: digits' =>
      if Ascii.eqb c d then Some 0%N
      else match digit_index c digits' with
           | Some n => Some (N.succ n)
           | None => None
           end
  end.

Definition unhex_byte (c1 c2 : ascii) : option byte :=
  match digit_index c1 hex_chars, digit_index c2 hex_chars with
  | Some h, Some l => Byte.of_N (16 * h + l)
  | _, _ => None
  end.

Fixpoint unhex (s : string) : option (list byte) :=
  match s with
  | EmptyString => Some []
  | String c1 (String c2 s') =>
      match unhex_byte c1 c2, unhex s' with
      | Some b, Some l => Some (b :: l)
      | _, _ => None
      end
  | String _ EmptyString => None
  end.

(** A byte becomes two hexadecimal digits that read back as the byte. *)
Definition hex_byte_ok (b : byte) : bool :=
  match hex_byte b with
  | String c1 (String c2 EmptyString) =>
      is_hex_char c1 && is_hex_char c2
      && match unhex_byte c1 c2 with
         | Some b' => Byte.eqb b b'
         | None => false
         end
  | _ => false
  end.




(** The insight is shown at time [now]: not dismissed and not expired. *)
Definition shown (now : Z) (i : AiInsight) : Prop :=
  is_dismissed i = Some false
  /\ (expires_at i = None \/ exists e, expires_at i = Some e /\ (now < e)%Z).

(** [INSERT INTO notes]: the row is added at the end of the table. *)
Definition add_note (db : Database) (n : Note) : Database :=
  mkDatabase (contacts db) (contact_metadata db) (notes db ++ [n])%list
    (tags db) (contact_tags db).

(** The notes of a contact. *)
Definition notes_of (db : Database) (cid : Uuid) : list Note :=
  filter (fun m => String.eqb (n_contact_id m) cid) (notes db).

(** The notes of the contact have pairwise distinct creation times:
    [ORDER BY created_at] then leaves the executor no choice. *)
Definition distinct_note_times (db : Database) (cid : Uuid) : Prop :=
  NoDup (map n_created_at (notes_of db cid)).

(** The notes of a contact created after time [t]. *)
Definition notes_since (db : Database) (cid : Uuid) (t : Z) : list Note :=
  filter (fun m => (t <? n_created_at m)%Z)
    (filter (fun m => String.eqb (n_contact_id m) cid) (notes db)).

(* ================================================================== *)
(** * Properties *)

(* ------------------------------------------------------------------ *)
(** ** One iteration of the loop, case by case *)

#[local] Arguments generate_embedding_content : simpl never.
#[local] Arguments generateHash : simpl never.
#[local] Arguments embedding_of : simpl never.
#[local] Arguments upsert_rows : simpl never.
#[local] Arguments Js.substring0 : simpl never.
#[local] Arguments String.append : simpl never.
#[local] Arguments up_to_date : simpl never.
#[local] Arguments single : simpl never.

Section Iteration.
Variable w : World.
Variable db : Database.

Lemma process_contact_empty userId cid st :
  content_of db cid = "" ->
  process_contact w db userId cid st
  = (inr tt, mkState (table st) (incr_skipped (results st))
               (calls st ++ [EvCompose cid])%list).
Proof.
  unfold content_of; intros Hc.
  unfold process_contact, try_catch, embed_contact, bind,
    rpc_generate_embedding_content, log, ret, update_results; cbn.
  rewrite Hc; reflexivity.
Qed.

Lemma process_contact_fresh userId cid st :
  content_of db cid <> "" ->
  fresh w db cid (table st) = true ->
  process_contact w db userId cid st
  = (inr tt, mkState (table st) (incr_skipped (results st))
               (calls st ++ [EvCompose cid; EvSelectEmbedding cid])%list).
Proof.
  unfold fresh, existing_of, content_of; intros Hc Hf.
  apply String.eqb_neq in Hc.
  unfold process_contact, try_catch, embed_contact, bind,
    rpc_generate_embedding_content, select_existing, read_table,
    log, ret, update_results; cbn.
  rewrite Hc; cbn. rewrite Hf; cbn.
  rewrite <- app_assoc; reflexivity.
Qed.

Lemma process_contact_provider_error userId cid st message :
  content_of db cid <> "" ->
  fresh w db cid (table st) = false ->
  embedding_of w (content_of db cid) = inl message ->
  process_contact w db userId cid st
  = (inr tt,
     mkState (table st) (push_error (cid ++ ": " ++ message) (results st))
       (calls st ++ [EvCompose cid; EvSelectEmbedding cid;
                     EvProvider (content_of db cid)])%list).
Proof.
  unfold fresh, existing_of, content_of; intros Hc Hf He.
  apply String.eqb_neq in Hc.
  unfold process_contact, try_catch, embed_contact, bind,
    rpc_generate_embedding_content, select_existing, generateEmbedding,
    lift_result, read_table, log, ret, update_results; cbn.
  rewrite Hc; cbn. rewrite Hf; cbn. rewrite He; cbn.
  repeat rewrite <- app_assoc; reflexivity.
Qed.

Lemma process_contact_store_error userId cid st v message :
  content_of db cid <> "" ->
  fresh w db cid (table st) = false ->
  embedding_of w (content_of db cid) = inr v ->
  store_verdict w (table st) (payload_of w db userId cid v) = Some message ->
  process_contact w db userId cid st
  = (inr tt,
     mkState (table st) (push_error (cid ++ ": " ++ message) (results st))
       (calls st ++ [EvCompose cid; EvSelectEmbedding cid;
                     EvProvider (content_of db cid);
                     EvUpsert (payload_of w db userId cid v)])%list).
Proof.
  unfold payload_of, fresh, existing_of, content_of; intros Hc Hf He Hu.
  apply String.eqb_neq in Hc.
  unfold process_contact, try_catch, embed_contact, bind,
    rpc_generate_embedding_content, select_existing, generateEmbedding,
    upsert, lift_result, read_table, log, ret, update_results; cbn.
  rewrite Hc; cbn. rewrite Hf; cbn. rewrite He; cbn. rewrite Hu; cbn.
  repeat rewrite <- app_assoc; reflexivity.
Qed.

Lemma process_contact_written userId cid st v :
  content_of db cid <> "" ->
  fresh w db cid (table st) = false ->
  embedding_of w (content_of db cid) = inr v ->
  store_verdict w (table st) (payload_of w db userId cid v) = None ->
  process_contact w db userId cid st
  = (inr tt,
     mkState (upsert_rows (table st) (payload_of w db userId cid v))
       (incr_processed
          (match existing_of cid (table st) with
           | Some _ => incr_updated (results st)
           | None => incr_created (results st)
           end))
       (calls st ++ [EvCompose cid; EvSelectEmbedding cid;
                     EvProvider (content_of db cid);
                     EvUpsert (payload_of w db userId cid v)])%list).
Proof.
  unfold payload_of, fresh, existing_of, content_of; intros Hc Hf He Hu.
  apply String.eqb_neq in Hc.
  unfold process_contact, try_catch, embed_contact, bind,
    rpc_generate_embedding_content, select_existing, generateEmbedding,
    upsert, write_table, lift_result, read_table, log, ret, update_results; cbn.
  rewrite Hc; cbn. rewrite Hf; cbn. rewrite He; cbn. rewrite Hu; cbn.
  repeat rewrite <- app_assoc.
  destruct (single (filter (same_contact cid) (table st))); reflexivity.
Qed.

End Iteration.

(* ------------------------------------------------------------------ *)
(** ** The store under upsert *)

Lemma stored_from_inserted p : stored_from p (inserted_row p).
Proof. repeat split. Qed.

Lemma same_contact_true cid r : same_contact cid r = true <-> ce_contact_id r = cid.
Proof. unfold same_contact; apply String.eqb_eq. Qed.

Lemma same_contact_false cid r : same_contact cid r = false <-> ce_contact_id r <> cid.
Proof. unfold same_contact; apply String.eqb_neq. Qed.

Lemma existsb_same_contact_false cid tbl :
  existsb (same_contact cid) tbl = false <-> ~ In cid (map ce_contact_id tbl).
Proof.
  induction tbl as [|r tbl IH]; cbn.
  - split; [intros _ []|reflexivity].
  - rewrite orb_false_iff, IH, same_contact_false. tauto.
Qed.

Lemma filter_same_contact_absent cid tbl :
  ~ In cid (map ce_contact_id tbl) -> filter (same_contact cid) tbl = [].
Proof.
  induction tbl as [|r tbl IH]; cbn; intros Hn; [reflexivity|].
  destruct (same_contact cid r) eqn:E.
  - apply same_contact_true in E; tauto.
  - apply IH; tauto.
Qed.

(** Under the UNIQUE constraint a contact selects no row, or one. *)
Lemma unique_selects_at_most_one cid tbl :
  unique_contact_id tbl ->
  filter (same_contact cid) tbl = []
  \/ exists r, filter (same_contact cid) tbl = [r].
Proof.
  unfold unique_contact_id.
  induction tbl as [|r tbl IH]; cbn; intros Hu; [now left|].
  inversion Hu as [|? ? Hnotin Hu']; subst.
  destruct (same_contact cid r) eqn:E.
  - right. exists r. f_equal. apply filter_same_contact_absent.
    apply same_contact_true in E; now subst.
  - now apply IH.
Qed.

(** The store accepts a write only for a contact that has no row. *)
Lemma store_verdict_none w tbl p :
  store_verdict w tbl p = None <->
  upsert_error w tbl p = None
  /\ existsb (same_contact (p_contact_id p)) tbl = false.
Proof.
  unfold store_verdict.
  destruct (upsert_error w tbl p);
    destruct (existsb (same_contact (p_contact_id p)) tbl);
    split; try discriminate; try tauto; intros [? ?]; discriminate.
Qed.

Lemma store_verdict_duplicate w tbl p :
  existsb (same_contact (p_contact_id p)) tbl = true ->
  exists message, store_verdict w tbl p = Some message.
Proof.
  unfold store_verdict; intros ->.
  destruct (upsert_error w tbl p); eauto.
Qed.

(** The UNIQUE constraint survives every accepted upsert. *)
Lemma upsert_rows_unique p tbl :
  existsb (same_contact (p_contact_id p)) tbl = false ->
  unique_contact_id tbl -> unique_contact_id (upsert_rows tbl p).
Proof.
  unfold unique_contact_id, upsert_rows. intros E Hu.
  apply existsb_same_contact_false in E.
  rewrite map_app; cbn.
  apply NoDup_rev in Hu. rewrite <- (rev_involutive (_ ++ _)%list).
  apply NoDup_rev. rewrite rev_app_distr; cbn.
  constructor; [|assumption].
  now rewrite <- in_rev.
Qed.

(** An upsert for one contact leaves the rows of the others alone. *)
Lemma upsert_rows_other p cid tbl :
  p_contact_id p <> cid ->
  filter (same_contact cid) (upsert_rows tbl p) = filter (same_contact cid) tbl.
Proof.
  intros Hne. unfold upsert_rows.
  rewrite filter_app; cbn [filter].
  assert (H1 : same_contact cid (inserted_row p) = false)
    by (apply same_contact_false; now cbn).
  rewrite H1. apply app_nil_r.
Qed.

(** After an accepted upsert the contact selects exactly one row: the
    one the payload inserted. *)
Lemma upsert_rows_same p tbl :
  existsb (same_contact (p_contact_id p)) tbl = false ->
  filter (same_contact (p_contact_id p)) (upsert_rows tbl p) = [inserted_row p].
Proof.
  intros E. unfold upsert_rows.
  apply existsb_same_contact_false in E.
  rewrite filter_app, (filter_same_contact_absent _ _ E); cbn [filter app].
  assert (H1 : same_contact (p_contact_id p) (inserted_row p) = true)
    by (apply same_contact_true; reflexivity).
  now rewrite H1.
Qed.

(* ------------------------------------------------------------------ *)
(** ** The loop *)

Section Loop.
Variable w : World.
Variable db : Database.

(** An iteration never throws, and goes one of the five ways. *)
Lemma process_contact_iteration userId cid st :
  process_contact w db userId cid st = (inr tt, step w db userId cid st)
  /\ iteration w db userId cid st (step w db userId cid st).
Proof.
  unfold step.
  destruct (String.eqb_spec (content_of db cid) "") as [Hc|Hc].
  { rewrite (process_contact_empty w db userId cid st Hc).
    split; [reflexivity | now constructor]. }
  destruct (fresh w db cid (table st)) eqn:Hf.
  { rewrite (process_contact_fresh w db userId cid st Hc Hf).
    split; [reflexivity | now constructor]. }
  destruct (embedding_of w (content_of db cid)) as [message|v] eqn:He.
  { rewrite (process_contact_provider_error w db userId cid st message Hc Hf He).
    split; [reflexivity | now constructor]. }
  destruct (store_verdict w (table st) (payload_of w db userId cid v))
    as [message|] eqn:Hu.
  - rewrite (process_contact_store_error w db userId cid st v message Hc Hf He Hu).
    split; [reflexivity | now apply it_store_error].
  - rewrite (process_contact_written w db userId cid st v Hc Hf He Hu).
    split; [reflexivity | now apply it_written].
Qed.

Lemma process_contacts_nil userId st :
  process_contacts w db userId [] st = (inr tt, st).
Proof. reflexivity. Qed.

(** The loop goes on to the next contact whatever the iteration did. *)
Lemma process_contacts_cons userId cid rest st :
  process_contacts w db userId (cid :: rest) st
  = process_contacts w db userId rest (step w db userId cid st).
Proof.
  unfold process_contacts; cbn [for_of]; unfold bind at 1.
  destruct (process_contact_iteration userId cid st) as [-> _].
  reflexivity.
Qed.

Lemma steps_nil userId st : steps w db userId [] st = st.
Proof. reflexivity. Qed.

Lemma steps_cons userId cid rest st :
  steps w db userId (cid :: rest) st = steps w db userId rest (step w db userId cid st).
Proof. unfold steps. now rewrite process_contacts_cons. Qed.

Lemma steps_app userId pre post st :
  steps w db userId (pre ++ post)%list st = steps w db userId post (steps w db userId pre st).
Proof.
  revert st; induction pre as [|cid pre IH]; intros st; cbn [app].
  - reflexivity.
  - now rewrite !steps_cons, IH.
Qed.

(** The loop never throws. *)
Lemma process_contacts_returns userId ids st :
  process_contacts w db userId ids st = (inr tt, steps w db userId ids st).
Proof.
  revert st; induction ids as [|cid ids IH]; intros st.
  - reflexivity.
  - rewrite process_contacts_cons, steps_cons. apply IH.
Qed.

(** The UNIQUE constraint is an invariant of the loop. *)
Lemma iteration_unique userId cid st st' :
  iteration w db userId cid st st' ->
  unique_contact_id (table st) -> unique_contact_id (table st').
Proof.
  intros Hit Hu; inversion Hit; subst; cbn [table]; try assumption.
  match goal with
  | H : store_verdict _ _ _ = None |- _ => apply store_verdict_none in H as [_ H]
  end.
  now apply upsert_rows_unique.
Qed.

Lemma steps_unique userId ids st :
  unique_contact_id (table st) -> unique_contact_id (table (steps w db userId ids st)).
Proof.
  revert st; induction ids as [|cid ids IH]; intros st Hu.
  - assumption.
  - rewrite steps_cons. apply IH.
    eapply iteration_unique; [apply process_contact_iteration | assumption].
Qed.

Lemma iteration_one_bucket userId cid st st' :
  iteration w db userId cid st st' -> one_bucket (results st) (results st').
Proof.
  intros Hit; inversion Hit; subst; cbn [results].
  - right; left; cbn; tauto.
  - right; left; cbn; tauto.
  - right; right; eexists; cbn; repeat split.
  - right; right; eexists; cbn; repeat split.
  - left. destruct (existing_of cid (table st)); cbn; repeat split; lia.
Qed.

Lemma one_bucket_totals r r' :
  one_bucket r r' ->
  (processed r = created r + updated r -> processed r' = created r' + updated r')
  /\ processed r' + skipped r' + List.length (errors r')
     = S (processed r + skipped r + List.length (errors r)).
Proof.
  intros [(Hp & Hcu & Hs & He) | [(Hs & Hp & Hc & Hu & He)
                                 | (e & He & Hp & Hc & Hu & Hs)]].
  - rewrite He; split; lia.
  - rewrite He; split; lia.
  - rewrite He, length_app; cbn; split; lia.
Qed.

Lemma steps_totals userId ids st :
  let r := results st in
  let r' := results (steps w db userId ids st) in
  (processed r = created r + updated r -> processed r' = created r' + updated r')
  /\ processed r' + skipped r' + List.length (errors r')
     = List.length ids + (processed r + skipped r + List.length (errors r)).
Proof.
  revert st; induction ids as [|cid ids IH]; intros st; cbn zeta.
  - rewrite steps_nil; cbn; tauto.
  - rewrite steps_cons.
    destruct (process_contact_iteration userId cid st) as [_ Hit].
    apply iteration_one_bucket, one_bucket_totals in Hit as [H1 H2].
    specialize (IH (step w db userId cid st)); cbn zeta in IH.
    destruct IH as [IH1 IH2]. split.
    + intros H; apply IH1, H1, H.
    + rewrite IH2, H2; cbn; lia.
Qed.

End Loop.

(** C10. For every list of ids and every stored table the batch loop
    returns; its outcome satisfies [processed = created + updated] and
    [processed + skipped + length errors] is the number of ids iterated;
    and every single iteration, from any state, moves exactly one of the
    three buckets (processed, skipped, errors) by one and leaves the
    other two alone. *)
Theorem batch_outcome_accounting w db userId ids tbl :
  let out := run_batch w db userId ids tbl in
  let r := results (snd out) in
  fst out = inr tt
  /\ processed r = created r + updated r
  /\ processed r + skipped r + List.length (errors r) = List.length ids
  /\ (forall cid st,
         one_bucket (results st)
           (results (snd (process_contact w db userId cid st)))).
Proof.
  cbn zeta; unfold run_batch.
  rewrite process_contacts_returns; cbn [fst snd].
  pose proof (steps_totals w db userId ids (mkState tbl empty_results []))
    as H; cbn zeta in H; cbn [results] in H.
  destruct H as [H1 H2].
  repeat split.
  - apply H1; reflexivity.
  - rewrite H2; cbn; lia.
  - intros cid st.
    destruct (process_contact_iteration w db userId cid st) as [_ Hit].
    eapply iteration_one_bucket; exact Hit.
Qed.

(* ------------------------------------------------------------------ *)
(** ** Checks on the sample installation *)

Module SampleChecks.
Import Sample.

Example content_c1 :
  generate_embedding_content db "c1" = "Ann likes tea met at the fair friend".
Proof. reflexivity. Qed.

Example content_c2 : generate_embedding_content db "c2" = "Ben Oslo".
Proof. reflexivity. Qed.

Example content_unknown : generate_embedding_content db "nobody" = "".
Proof. reflexivity. Qed.

Example hash_c3 : generateHash world "Cat" = "436174".
Proof. reflexivity. Qed.

Example sweep_of_alice :
  contact_ids_of db alice (mkEmbeddingsBody None None)
  = ["c1"; "c2"; "c3"; "c4"; "c5"].
Proof. reflexivity. Qed.

End SampleChecks.

(* ------------------------------------------------------------------ *)
(** ** Failure isolation *)

Section Isolation.
Variable w : World.
Variable db : Database.

Lemma existing_of_upsert_other p cid tbl :
  p_contact_id p <> cid ->
  existing_of cid (upsert_rows tbl p) = existing_of cid tbl.
Proof. intros H; unfold existing_of; now rewrite upsert_rows_other. Qed.

Lemma fresh_upsert_other p cid tbl :
  p_contact_id p <> cid ->
  fresh w db cid (upsert_rows tbl p) = fresh w db cid tbl.
Proof. intros H; unfold fresh; now rewrite existing_of_upsert_other. Qed.

Lemma existing_of_upsert_same p tbl :
  existsb (same_contact (p_contact_id p)) tbl = false ->
  existing_of (p_contact_id p) (upsert_rows tbl p) = Some (inserted_row p).
Proof.
  intros E. unfold existing_of. now rewrite upsert_rows_same.
Qed.






End Isolation.




(* ------------------------------------------------------------------ *)
(** ** Change detection *)

Lemma single_some {A : Type} (rows : list A) (r : A) :
  single rows = Some r <-> rows = [r].
Proof.
  unfold single.
  destruct rows as [|a [|b rows]]; split; intros H;
    try discriminate; congruence.
Qed.

(** Under the UNIQUE constraint, what [.single()] returns for a contact
    is the stored record of that contact. *)
Lemma existing_of_some cid tbl r :
  unique_contact_id tbl ->
  existing_of cid tbl = Some r <-> In r tbl /\ ce_contact_id r = cid.
Proof.
  intros Hu. unfold existing_of. rewrite single_some. split.
  - intros H.
    assert (Hin : In r (filter (same_contact cid) tbl)) by (rewrite H; now left).
    apply filter_In in Hin as [Hin Hs]. now apply same_contact_true in Hs.
  - intros [Hin Hid].
    assert (Hf : In r (filter (same_contact cid) tbl))
      by (apply filter_In; split; [assumption | now apply same_contact_true]).
    destruct (unique_selects_at_most_one cid tbl Hu) as [E | [r0 E]];
      rewrite E in Hf |- *; cbn in Hf.
    + contradiction.
    + destruct Hf as [-> | []]; reflexivity.
Qed.

Lemma fresh_true_iff w db cid tbl :
  unique_contact_id tbl ->
  fresh w db cid tbl = true <-> fingerprint_stored w db cid tbl.
Proof.
  intros Hu. unfold fresh, fingerprint_stored, up_to_date.
  destruct (existing_of cid tbl) as [e|] eqn:E.
  - apply (existing_of_some _ _ _ Hu) in E as [Hin Hid].
    rewrite String.eqb_eq. split.
    + intros H; exists e; tauto.
    + intros (r & Hr & Hrid & Hh).
      assert (r = e); [|now subst].
      assert (E1 : existing_of cid tbl = Some r)
        by (apply existing_of_some; tauto).
      assert (E2 : existing_of cid tbl = Some e)
        by (apply existing_of_some; tauto).
      congruence.
  - split; [discriminate|].
    intros (r & Hr & Hrid & _).
    assert (E1 : existing_of cid tbl = Some r)
      by (apply existing_of_some; tauto).
    congruence.
Qed.

Lemma provider_calls_app l evs :
  provider_calls (l ++ evs) = (provider_calls l ++ provider_calls evs)%list.
Proof. apply filter_app. Qed.

Lemma store_calls_app l evs :
  store_calls (l ++ evs) = (store_calls l ++ store_calls evs)%list.
Proof. apply filter_app. Qed.

(** C2. Take one iteration of the batch loop on a store that satisfies
    its UNIQUE constraint. If the composed text of the contact is not
    empty, the iteration counts the contact as skipped without calling
    the provider if and only if a record of that contact is stored whose
    fingerprint is the hash of the composed text; otherwise the provider
    is called on that text. If the composed text is empty, the contact is
    counted as skipped, no error is recorded, nothing is written, and
    neither the provider nor the embedding store is called. *)
Theorem change_detector_skip_iff w db userId cid st :
  unique_contact_id (table st) ->
  let st' := snd (process_contact w db userId cid st) in
  (content_of db cid <> "" ->
   ((skipped (results st') = S (skipped (results st))
     /\ provider_calls (calls st') = provider_calls (calls st))
    <-> fingerprint_stored w db cid (table st))
   /\ (~ fingerprint_stored w db cid (table st) ->
       skipped (results st') = skipped (results st)
       /\ provider_calls (calls st')
          = (provider_calls (calls st) ++ [EvProvider (content_of db cid)])%list))
  /\ (content_of db cid = "" ->
      skipped (results st') = S (skipped (results st))
      /\ errors (results st') = errors (results st)
      /\ processed (results st') = processed (results st)
      /\ table st' = table st
      /\ provider_calls (calls st') = provider_calls (calls st)
      /\ store_calls (calls st') = store_calls (calls st)).
Proof.
  intros Hu; cbn zeta.
  destruct (process_contact_iteration w db userId cid st) as [_ Hit].
  fold (step w db userId cid st).
  pose proof (fresh_true_iff w db cid (table st) Hu) as Hfresh.
  split.
  - intros Hc.
    inversion Hit as [Hc' Hst | Hc' Hf Hst | m Hc' Hf He Hst
                      | v m Hc' Hf He Hup Hst | v Hc' Hf He Hup Hst];
      try contradiction; cbn [results calls skipped incr_skipped push_error
                                incr_processed].
    + apply Hfresh in Hf. split.
      * split; [intros _; exact Hf|intros _].
        rewrite provider_calls_app; cbn. now rewrite app_nil_r.
      * intros Hn; contradiction.
    + assert (Hn : ~ fingerprint_stored w db cid (table st))
        by (rewrite <- Hfresh; congruence).
      split.
      * split; [intros [H _]; lia | intros H; contradiction].
      * intros _. split; [reflexivity|].
        now rewrite provider_calls_app.
    + assert (Hn : ~ fingerprint_stored w db cid (table st))
        by (rewrite <- Hfresh; congruence).
      split.
      * split; [intros [H _]; lia | intros H; contradiction].
      * intros _. split; [reflexivity|].
        now rewrite provider_calls_app.
    + assert (Hn : ~ fingerprint_stored w db cid (table st))
        by (rewrite <- Hfresh; congruence).
      assert (Hs : skipped
                     match existing_of cid (table st) with
                     | Some _ => incr_updated (results st)
                     | None => incr_created (results st)
                     end = skipped (results st))
        by (destruct (existing_of cid (table st)); reflexivity).
      split.
      * split; [intros [H _]; rewrite Hs in H; lia | intros H; contradiction].
      * intros _. split; [exact Hs|].
        now rewrite provider_calls_app.
  - intros Hc.
    inversion Hit as [Hc' Hst | Hc' Hf Hst | m Hc' Hf He Hst
                      | v m Hc' Hf He Hup Hst | v Hc' Hf He Hup Hst];
      try contradiction.
    cbn [results calls table skipped errors processed incr_skipped].
    rewrite provider_calls_app, store_calls_app; cbn.
    now rewrite !app_nil_r.
Qed.

Lemma change_detector_skip_iff_witness :
  let st := mkState Sample.stored_cat empty_results [] in
  unique_contact_id (table st)
  /\ skipped (results (snd (process_contact Sample.world Sample.db
                              Sample.alice "c3" st))) = 1.
Proof.
  cbn zeta.
  assert (Hu : unique_contact_id (table (mkState Sample.stored_cat empty_results [])))
    by (repeat constructor; cbn; tauto).
  split; [exact Hu|].
  destruct (change_detector_skip_iff Sample.world Sample.db Sample.alice "c3"
              (mkState Sample.stored_cat empty_results []) Hu) as [H _].
  assert (Hc : content_of Sample.db "c3" <> "") by (vm_compute; discriminate).
  destruct (H Hc) as [[_ Hiff] _].
  apply Hiff.
  eexists; split; [left; reflexivity|]. split; reflexivity.
Defined.

(* ------------------------------------------------------------------ *)
(** ** Two runs in succession *)

Section Idempotence.
Variable w : World.
Variable db : Database.

Lemma fresh_after_upsert userId cid v tbl :
  store_verdict w tbl (payload_of w db userId cid v) = None ->
  fresh w db cid (upsert_rows tbl (payload_of w db userId cid v)) = true.
Proof.
  intros Hv. apply store_verdict_none in Hv as [_ Hv].
  pose proof (existing_of_upsert_same (payload_of w db userId cid v) tbl Hv)
    as Hr.
  cbn [payload_of p_contact_id] in Hr.
  unfold fresh. rewrite Hr. unfold up_to_date. now apply String.eqb_eq.
Qed.

(** An iteration keeps settled contacts settled. *)
Lemma iteration_keeps_settled userId cid st st' c :
  iteration w db userId cid st st' ->
  unique_contact_id (table st) ->
  settled w db c (table st) -> settled w db c (table st').
Proof.
  intros Hit Hu Hs; inversion Hit; subst; cbn [table]; try assumption.
  destruct Hs as [Hs | Hs]; [now left | right].
  destruct (String.eqb_spec cid c) as [-> | Hne].
  - now apply fresh_after_upsert.
  - rewrite fresh_upsert_other; [assumption | exact Hne].
Qed.

(** An iteration that records no error settles its contact. *)
Lemma iteration_settles userId cid st st' :
  iteration w db userId cid st st' ->
  unique_contact_id (table st) ->
  List.length (errors (results st')) = List.length (errors (results st)) ->
  settled w db cid (table st').
Proof.
  intros Hit Hu Hlen; inversion Hit; subst; cbn [table results] in *.
  - now left.
  - now right.
  - cbn in Hlen. rewrite length_app in Hlen; cbn in Hlen; lia.
  - cbn in Hlen. rewrite length_app in Hlen; cbn in Hlen; lia.
  - right. now apply fresh_after_upsert.
Qed.

Lemma iteration_errors_grow userId cid st st' :
  iteration w db userId cid st st' ->
  List.length (errors (results st)) <= List.length (errors (results st')).
Proof.
  intros Hit. apply iteration_one_bucket in Hit.
  destruct Hit as [(_ & _ & _ & He) | [(_ & _ & _ & _ & He) | (e & He & _)]];
    rewrite He; [lia | lia | rewrite length_app; cbn; lia].
Qed.

Lemma steps_errors_grow userId ids st :
  List.length (errors (results st))
  <= List.length (errors (results (steps w db userId ids st))).
Proof.
  revert st; induction ids as [|cid ids IH]; intros st.
  - rewrite steps_nil; lia.
  - rewrite steps_cons.
    destruct (process_contact_iteration w db userId cid st) as [_ Hit].
    apply iteration_errors_grow in Hit.
    specialize (IH (step w db userId cid st)). lia.
Qed.

Lemma steps_keep_settled userId ids st c :
  unique_contact_id (table st) ->
  settled w db c (table st) -> settled w db c (table (steps w db userId ids st)).
Proof.
  revert st; induction ids as [|cid ids IH]; intros st Hu Hs.
  - assumption.
  - rewrite steps_cons.
    destruct (process_contact_iteration w db userId cid st) as [_ Hit].
    apply IH.
    + eapply iteration_unique; eassumption.
    + eapply iteration_keeps_settled; eassumption.
Qed.

(** A run that records no error settles every contact it visits. *)
Lemma steps_settle userId ids st :
  unique_contact_id (table st) ->
  List.length (errors (results (steps w db userId ids st)))
  = List.length (errors (results st)) ->
  forall c, In c ids -> settled w db c (table (steps w db userId ids st)).
Proof.
  revert st; induction ids as [|cid ids IH]; intros st Hu Hlen c Hin.
  - destruct Hin.
  - rewrite steps_cons in Hlen |- *.
    destruct (process_contact_iteration w db userId cid st) as [_ Hit].
    pose proof (iteration_errors_grow _ _ _ _ Hit) as G1.
    pose proof (steps_errors_grow userId ids (step w db userId cid st)) as G2.
    assert (Hu1 : unique_contact_id (table (step w db userId cid st)))
      by (eapply iteration_unique; eassumption).
    destruct Hin as [<- | Hin].
    + apply steps_keep_settled; [assumption|].
      eapply iteration_settles; [eassumption | assumption | lia].
    + apply IH; [assumption | lia | assumption].
Qed.

(** On a settled contact the iteration only counts a skip. *)
Lemma step_settled userId cid st :
  settled w db cid (table st) ->
  exists evs,
    step w db userId cid st
    = mkState (table st) (incr_skipped (results st)) (calls st ++ evs)%list
    /\ provider_calls evs = [].
Proof.
  intros Hs. unfold step.
  destruct (String.eqb_spec (content_of db cid) "") as [Hc | Hc].
  - rewrite (process_contact_empty w db userId cid st Hc).
    eexists; split; reflexivity.
  - destruct Hs as [Hs | Hs]; [contradiction|].
    rewrite (process_contact_fresh w db userId cid st Hc Hs).
    eexists; split; reflexivity.
Qed.

Lemma steps_settled userId ids st :
  (forall c, In c ids -> settled w db c (table st)) ->
  let st' := steps w db userId ids st in
  table st' = table st
  /\ processed (results st') = processed (results st)
  /\ created (results st') = created (results st)
  /\ updated (results st') = updated (results st)
  /\ skipped (results st') = List.length ids + skipped (results st)
  /\ errors (results st') = errors (results st)
  /\ provider_calls (calls st') = provider_calls (calls st).
Proof.
  revert st; induction ids as [|cid ids IH]; intros st Hall; cbn zeta.
  - rewrite steps_nil. repeat split.
  - rewrite steps_cons.
    destruct (step_settled userId cid st (Hall cid (or_introl eq_refl)))
      as (evs & -> & Hevs).
    match goal with |- context [steps w db userId ids ?s] =>
      specialize (IH s) end.
    cbn zeta in IH; cbn [table results calls] in IH.
    destruct IH as (T & P & C & U & S & E & PC).
    { intros c Hc. apply Hall. now right. }
    rewrite T, P, C, U, S, E, PC.
    rewrite provider_calls_app, Hevs, app_nil_r.
    cbn. repeat split. lia.
Qed.

End Idempotence.

(** With a provider that fails on one text every time it is asked, the
    contact with that text is an error in the first run and again in the
    second: four of alice's five contacts are skipped, not five. *)
Lemma idempotence_counterexample :
  ~ idempotent_run Sample.world Sample.db Sample.alice
      ["c1"; "c2"; "c3"; "c4"; "c5"] [].
Proof.
  unfold idempotent_run. intros (_ & _ & H).
  vm_compute in H. discriminate H.
Qed.

(** C3, amended. On a store that satisfies its UNIQUE constraint, if a
    first run over [ids] records no error, then a second run over the same
    ids on the table the first one left, with the same data, provider and
    store, creates nothing, updates nothing, processes nothing, counts
    every id as skipped, records no error, leaves the table as it is and
    does not call the provider. *)
Theorem second_run_all_skipped w db userId ids tbl :
  unique_contact_id tbl ->
  errors (results (snd (run_batch w db userId ids tbl))) = [] ->
  let first := snd (run_batch w db userId ids tbl) in
  let second := snd (run_batch w db userId ids (table first)) in
  idempotent_run w db userId ids tbl
  /\ processed (results second) = 0
  /\ errors (results second) = []
  /\ table second = table first
  /\ provider_calls (calls second) = [].
Proof.
  intros Hu Herr; cbn zeta. unfold idempotent_run; cbn zeta.
  unfold run_batch in *. rewrite !process_contacts_returns in *.
  cbn [snd] in *.
  set (st0 := mkState tbl empty_results []) in *.
  set (st1 := steps w db userId ids st0) in *.
  assert (Hs : forall c, In c ids -> settled w db c (table st1)).
  { apply steps_settle; [exact Hu|].
    fold st1. now rewrite Herr. }
  pose proof (steps_settled w db userId ids
                (mkState (table st1) empty_results []) Hs) as H.
  cbn zeta in H; cbn [table results calls] in H.
  destruct H as (T & P & C & U & S & E & PC).
  rewrite T, P, C, U, S, E, PC. cbn.
  repeat split. lia.
Qed.

Lemma second_run_all_skipped_witness :
  let first := snd (run_batch Sample.world Sample.db Sample.alice
                      ["c1"; "c2"; "c4"] []) in
  let second := snd (run_batch Sample.world Sample.db Sample.alice
                       ["c1"; "c2"; "c4"] (table first)) in
  idempotent_run Sample.world Sample.db Sample.alice ["c1"; "c2"; "c4"] []
  /\ processed (results second) = 0
  /\ errors (results second) = []
  /\ table second = table first
  /\ provider_calls (calls second) = [].
Proof.
  apply (second_run_all_skipped Sample.world Sample.db Sample.alice
           ["c1"; "c2"; "c4"] []).
  - constructor.
  - vm_compute; reflexivity.
Defined.

(* ------------------------------------------------------------------ *)
(** ** Facts on the relational helpers *)

Section OrderBy.
Context {A : Type}.
Variable le : A -> A -> bool.
Hypothesis le_total : forall a b, le a b = false -> le b a = true.

Lemma insert_row_in x y l : In y (Sql.insert_row le x l) <-> y = x \/ In y l.
Proof.
  induction l as [|z l IH]; cbn.
  - intuition.
  - destruct (le x z); cbn; [intuition | rewrite IH; intuition].
Qed.

Lemma order_by_in y l : In y (Sql.order_by le l) <-> In y l.
Proof.
  unfold Sql.order_by.
  induction l as [|x l IH]; cbn; [tauto|].
  rewrite insert_row_in, IH. intuition.
Qed.

Lemma insert_row_length x l :
  List.length (Sql.insert_row le x l) = S (List.length l).
Proof.
  induction l as [|z l IH]; cbn; [reflexivity|].
  destruct (le x z); cbn; [reflexivity | now rewrite IH].
Qed.

Lemma order_by_length l : List.length (Sql.order_by le l) = List.length l.
Proof.
  unfold Sql.order_by.
  induction l as [|x l IH]; cbn; [reflexivity|].
  now rewrite insert_row_length, IH.
Qed.

Lemma insert_row_sorted x l :
  Sorted (fun a b => le a b = true) l ->
  Sorted (fun a b => le a b = true) (Sql.insert_row le x l).
Proof.
  induction l as [|z l IH]; cbn; intros Hs.
  - repeat constructor.
  - destruct (le x z) eqn:E.
    + constructor; [assumption | now constructor].
    + inversion Hs as [|? ? Hs' Hhd]; subst.
      constructor; [now apply IH|].
      destruct l as [|z' l]; cbn.
      * constructor. now apply le_total.
      * destruct (le x z'); constructor.
        -- now apply le_total.
        -- now inversion Hhd.
Qed.

Lemma order_by_sorted l : Sorted (fun a b => le a b = true) (Sql.order_by le l).
Proof.
  unfold Sql.order_by.
  induction l as [|x l IH]; cbn; [constructor | now apply insert_row_sorted].
Qed.

End OrderBy.

Lemma sorted_weaken {A : Type} (R R' : A -> A -> Prop) l :
  (forall a b, R a b -> R' a b) -> Sorted R l -> Sorted R' l.
Proof.
  intros HR; induction 1 as [|a l Hs IH Hhd]; constructor; [assumption|].
  destruct Hhd; constructor; now apply HR.
Qed.

Lemma strongly_sorted_weaken {A : Type} (R R' : A -> A -> Prop) l :
  (forall a b, R a b -> R' a b) -> StronglySorted R l -> StronglySorted R' l.
Proof.
  intros HR; induction 1 as [|a l Hs IH Hall]; constructor; [assumption|].
  rewrite Forall_forall in *. intros b Hb. now apply HR, Hall.
Qed.

Lemma firstn_in {A : Type} n (l : list A) x : In x (firstn n l) -> In x l.
Proof.
  intros H. rewrite <- (firstn_skipn n l). apply in_or_app. now left.
Qed.

Lemma firstn_strongly_sorted {A : Type} (R : A -> A -> Prop) n l :
  StronglySorted R l -> StronglySorted R (firstn n l).
Proof.
  revert l; induction n as [|n IH]; intros l Hs; cbn; [constructor|].
  destruct l as [|x l]; [constructor|].
  inversion Hs as [|? ? Hs' Hall]; subst.
  constructor; [now apply IH|].
  rewrite Forall_forall in *. intros y Hy. apply Hall.
  eapply (In_nth_error) in Hy as [k Hk].
  apply nth_error_In with k.
  rewrite nth_error_firstn in Hk.
  destruct (k <? n)%nat; [assumption | discriminate].
Qed.

Lemma map_strongly_sorted {A B : Type} (f : A -> B)
      (R : B -> B -> Prop) l :
  StronglySorted (fun a b => R (f a) (f b)) l -> StronglySorted R (map f l).
Proof.
  induction 1 as [|x l Hs IH Hall]; cbn; constructor; [assumption|].
  rewrite Forall_forall in *. intros y Hy.
  apply in_map_iff in Hy as (a & <- & Ha). now apply Hall.
Qed.

Lemma join_in {A B : Type} (on : A -> B -> bool) la lb a b :
  In (a, b) (Sql.join on la lb) <-> In a la /\ In b lb /\ on a b = true.
Proof.
  unfold Sql.join. rewrite in_flat_map. split.
  - intros (a' & Ha & Hin).
    apply in_map_iff in Hin as (b' & Heq & Hb).
    inversion Heq; subst. apply filter_In in Hb. tauto.
  - intros (Ha & Hb & Hon). exists a. split; [assumption|].
    apply in_map_iff. exists b. split; [reflexivity|].
    apply filter_In; tauto.
Qed.

(* ------------------------------------------------------------------ *)
(** ** Similarity search *)

Section Search.
Variable w : World.
Variable db : Database.

Lemma similar_rows_in tbl p_user_id q p_limit threshold row :
  In row (similar_rows w db tbl p_user_id q p_limit threshold) ->
  In row (qualifying w db tbl p_user_id q threshold).
Proof.
  unfold similar_rows, qualifying. intros H.
  apply firstn_in in H. now apply order_by_in in H.
Qed.

Lemma qualifying_in tbl p_user_id q threshold ce c :
  In (ce, c) (qualifying w db tbl p_user_id q threshold) <->
  In ce tbl /\ In c (contacts db) /\ ce_contact_id ce = c_id c
  /\ ce_user_id ce = p_user_id /\ deleted_at c = None
  /\ (threshold <= similarity_to w q (ce, c))%Q.
Proof.
  unfold qualifying, similar_where.
  rewrite filter_In, join_in, !andb_true_iff, !String.eqb_eq, Qle_bool_iff.
  cbn [fst snd]. unfold Sql.is_null.
  destruct (deleted_at c); intuition (try discriminate; auto).
Qed.

Lemma distance_order_total q (a b : ContactEmbedding * Contact) :
  Qle_bool (distance_to w q a) (distance_to w q b) = false ->
  Qle_bool (distance_to w q b) (distance_to w q a) = true.
Proof.
  intros H. apply Qle_bool_iff.
  destruct (Qlt_le_dec (distance_to w q b) (distance_to w q a)) as [Hlt | Hle].
  - now apply Qlt_le_weak.
  - apply Qle_bool_iff in Hle. congruence.
Qed.

Lemma similar_rows_sorted tbl p_user_id q p_limit threshold :
  StronglySorted
    (fun a b => (similarity_to w q b <= similarity_to w q a)%Q)
    (similar_rows w db tbl p_user_id q p_limit threshold).
Proof.
  unfold similar_rows. apply firstn_strongly_sorted.
  apply Sorted_StronglySorted.
  - intros a b c Hab Hbc. cbv beta in *. unfold similarity_to in *.
    apply Qle_trans with (1 - distance_to w q b)%Q; assumption.
  - apply sorted_weaken with
      (R := fun a b => Qle_bool (distance_to w q a) (distance_to w q b) = true).
    + intros a b Hab. apply Qle_bool_iff in Hab.
      unfold similarity_to, Qminus.
      apply Qplus_le_r. now apply Qopp_le_compat.
    + apply order_by_sorted. intros a b. apply distance_order_total.
Qed.

End Search.

Lemma find_similar_raises w db tbl userId q L t :
  find_similar_contacts w db tbl userId q L t = inl Sql.structure_mismatch.
Proof. reflexivity. Qed.

Lemma similar_query_rows w db tbl userId q L t rows :
  similar_query w db tbl userId q L t = inr rows <->
  (0 <= L)%Z
  /\ rows = map (similar_select w q) (similar_rows w db tbl userId q L t).
Proof.
  unfold similar_query.
  destruct (Z.ltb_spec L 0) as [Hneg | Hpos]; split.
  - discriminate.
  - intros [H _]; lia.
  - intros H; inversion H; split; [assumption | reflexivity].
  - intros [_ ->]; reflexivity.
Qed.

Lemma similar_select_similarity w q row :
  similarity (similar_select w q row) = similarity_to w q row.
Proof. destruct row; reflexivity. Qed.

(** C4. For every limit [L] and every threshold [t], in the rows the
    SELECT of [find_similar_contacts] yields every match has similarity
    [1 - distance >= t], the rows are ordered by descending similarity,
    and there are at most [L] of them; the SELECT yields rows for every
    non-negative [L]. The function hands none of them out: its result
    column [similarity] is declared NUMERIC, the SELECT computes a
    [double precision], and RETURN QUERY raises on every call, so no
    match is returned that is below the threshold, out of order or
    beyond the limit. *)
Theorem find_similar_threshold_order_limit w db tbl userId q (L : Z) (t : Q) :
  (forall rows,
      similar_query w db tbl userId q L t = inr rows ->
      Forall (fun m => (t <= similarity m)%Q) rows
      /\ StronglySorted (fun a b => (similarity b <= similarity a)%Q) rows
      /\ (Z.of_nat (List.length rows) <= L)%Z)
  /\ ((0 <= L)%Z -> exists rows, similar_query w db tbl userId q L t = inr rows)
  /\ find_similar_contacts w db tbl userId q L t = inl Sql.structure_mismatch.
Proof.
  split; [|split].
  - intros rows Hrows. apply similar_query_rows in Hrows as [HL ->].
    split; [|split].
    + rewrite Forall_forall. intros m Hm.
      apply in_map_iff in Hm as ([ce c] & <- & Hrow).
      apply similar_rows_in, qualifying_in in Hrow.
      rewrite similar_select_similarity. tauto.
    + apply map_strongly_sorted.
      apply strongly_sorted_weaken with
        (R := fun a b => (similarity_to w q b <= similarity_to w q a)%Q);
        [|apply similar_rows_sorted].
      intros a b Hab. now rewrite !similar_select_similarity.
    + rewrite length_map. unfold similar_rows.
      rewrite length_firstn. lia.
  - intros HL. eexists. apply similar_query_rows. split; [exact HL | reflexivity].
  - apply find_similar_raises.
Qed.

(** C5. Every row the SELECT of [find_similar_contacts] yields under
    scope [A] is the projection of an embedding record joined with its
    contact such that the record's scope id is [A] and the contact is not
    soft-deleted; a record of any other scope is never among the rows,
    whatever the distances are. The function returns no row at all (it
    raises on every call), so no record of another scope is ever
    returned. *)
Theorem find_similar_scope_isolation w db tbl A q L t :
  (forall rows m,
      similar_query w db tbl A q L t = inr rows ->
      In m rows ->
      exists ce c,
        In ce tbl /\ In c (contacts db) /\ ce_contact_id ce = c_id c
        /\ m = similar_select w q (ce, c)
        /\ ce_user_id ce = A
        /\ deleted_at c = None)
  /\ (forall ce' c', ce_user_id ce' <> A ->
                     ~ In (ce', c') (similar_rows w db tbl A q L t))
  /\ find_similar_contacts w db tbl A q L t = inl Sql.structure_mismatch.
Proof.
  split; [|split].
  - intros rows m Hrows Hm. apply similar_query_rows in Hrows as [_ ->].
    apply in_map_iff in Hm as ([ce c] & <- & Hrow).
    apply similar_rows_in, qualifying_in in Hrow.
    exists ce, c. repeat split; tauto.
  - intros ce' c' Hne Hin.
    apply similar_rows_in, qualifying_in in Hin. tauto.
  - apply find_similar_raises.
Qed.

(** The rows of the query for alice and for bob on the sample store,
    and what the function returns. *)
Example sample_search :
  match similar_query Sample.world Sample.db Sample.sample_store
          Sample.alice Sample.sample_query 10 0%Q with
  | inr rows => map sc_contact_id rows = ["c2"; "c1"]
  | inl _ => False
  end
  /\ find_similar_contacts Sample.world Sample.db Sample.sample_store
       Sample.alice Sample.sample_query 10 0%Q
     = inl "structure of query does not match function result type".
Proof. split; reflexivity. Qed.

Example sample_search_bob :
  match similar_query Sample.world Sample.db Sample.sample_store
          Sample.bob Sample.sample_query 10 0%Q with
  | inr rows => map sc_contact_id rows = ["b1"]
  | inl _ => False
  end.
Proof. reflexivity. Qed.

Lemma find_similar_threshold_order_limit_witness :
  exists rows,
    similar_query Sample.world Sample.db Sample.sample_store
      Sample.alice Sample.sample_query 1 (7 # 10)%Q = inr rows
    /\ map sc_contact_id rows = ["c2"]
    /\ Forall (fun m => (7 # 10 <= similarity m)%Q) rows
    /\ StronglySorted (fun a b => (similarity b <= similarity a)%Q) rows
    /\ (Z.of_nat (List.length rows) <= 1)%Z.
Proof.
  destruct (find_similar_threshold_order_limit Sample.world Sample.db
              Sample.sample_store Sample.alice Sample.sample_query 1 (7 # 10)%Q)
    as (Hsafe & Hsome & _).
  destruct Hsome as (rows & Hrows); [discriminate|].
  exists rows. split; [exact Hrows|]. split.
  - vm_compute in Hrows. inversion Hrows. reflexivity.
  - exact (Hsafe rows Hrows).
Defined.

Lemma find_similar_scope_isolation_witness :
  let c2 := Sample.person "c2" Sample.alice "Ben" None in
  let e2 := Sample.sample_record "c2" Sample.alice [4 # 5; 3 # 5]%Q in
  let b1 := Sample.person "b1" Sample.bob "Bruno" None in
  let f1 := Sample.sample_record "b1" Sample.bob [1; 0]%Q in
  (exists ce c,
      In ce Sample.sample_store /\ In c (contacts Sample.db)
      /\ ce_contact_id ce = c_id c
      /\ similar_select Sample.world Sample.sample_query (e2, c2)
         = similar_select Sample.world Sample.sample_query (ce, c)
      /\ ce_user_id ce = Sample.alice
      /\ deleted_at c = None)
  /\ ~ In (f1, b1)
         (similar_rows Sample.world Sample.db Sample.sample_store
            Sample.alice Sample.sample_query 10 0%Q).
Proof.
  cbn zeta.
  destruct (find_similar_scope_isolation Sample.world Sample.db
              Sample.sample_store Sample.alice Sample.sample_query 10 0%Q)
    as (Hin & Hout & _).
  split.
  - apply (Hin (map (similar_select Sample.world Sample.sample_query)
                  [ (Sample.sample_record "c2" Sample.alice [4 # 5; 3 # 5]%Q,
                     Sample.person "c2" Sample.alice "Ben" None);
                    (Sample.sample_record "c1" Sample.alice [3 # 5; 4 # 5]%Q,
                     Sample.person "c1" Sample.alice "Ann" None) ])).
    + vm_compute; reflexivity.
    + left; reflexivity.
  - apply Hout. cbn. discriminate.
Defined.

(* ------------------------------------------------------------------ *)
(** ** Repeated upserts *)

Section Upserts.
Variable w : World.

Lemma upsert_run p st :
  upsert w p st
  = match store_verdict w (table st) p with
    | Some message =>
        (inr (Some message),
         mkState (table st) (results st) (calls st ++ [EvUpsert p])%list)
    | None =>
        (inr None,
         mkState (upsert_rows (table st) p) (results st)
           (calls st ++ [EvUpsert p])%list)
    end.
Proof.
  unfold upsert, bind, log, read_table, write_table, ret; cbn.
  destruct (store_verdict w (table st) p); reflexivity.
Qed.

(** Once the contact has a row, every further statement for it is
    rejected and the table stays as it is. *)
Lemma upsert_each_recorded cid ps :
  (forall q, In q ps -> p_contact_id q = cid) ->
  forall st,
    existsb (same_contact cid) (table st) = true ->
    exists es st',
      upsert_each w ps st = (inr es, st')
      /\ List.length es = List.length ps
      /\ table st' = table st
      /\ last_accepted (combine ps es) = None.
Proof.
  induction ps as [|p ps IH]; intros Hall st Hex.
  - exists [], st. cbn. repeat split.
  - cbn [upsert_each]. unfold bind at 1. rewrite upsert_run.
    assert (Hall' : forall q, In q ps -> p_contact_id q = cid)
      by (intros q Hq; apply Hall; now right).
    assert (Hp : p_contact_id p = cid) by (apply Hall; now left).
    destruct (store_verdict_duplicate w (table st) p) as (message & ->);
      [now rewrite Hp|].
    cbv beta iota; unfold bind, ret.
    match goal with |- context [upsert_each w ps ?s] =>
      destruct (IH Hall' s Hex) as (es & st' & Hrun & Hlen & Ht & Hlast) end.
    exists (Some message :: es), st'.
    rewrite Hrun. cbn [combine last_accepted List.length].
    rewrite Hlast. repeat split; [now rewrite Hlen | exact Ht].
Qed.

Lemma existsb_after_insert p tbl :
  existsb (same_contact (p_contact_id p)) (upsert_rows tbl p) = true.
Proof.
  unfold upsert_rows. apply existsb_exists. exists (inserted_row p).
  split; [apply in_or_app; right; now left|].
  apply same_contact_true; reflexivity.
Qed.

Lemma upsert_each_spec cid ps :
  (forall q, In q ps -> p_contact_id q = cid) ->
  forall st,
    unique_contact_id (table st) ->
    exists es st',
      upsert_each w ps st = (inr es, st')
      /\ List.length es = List.length ps
      /\ unique_contact_id (table st')
      /\ last_accepted (combine ps es) = first_accepted w cid (table st) ps
      /\ match last_accepted (combine ps es) with
         | Some p => table st' = (table st ++ [inserted_row p])%list
                     /\ filter (same_contact cid) (table st') = [inserted_row p]
         | None => table st' = table st
         end.
Proof.
  intros Hall st Hu. unfold first_accepted.
  destruct (existsb (same_contact cid) (table st)) eqn:Hex.
  { destruct (upsert_each_recorded cid ps Hall st Hex)
      as (es & st' & Hrun & Hlen & Ht & Hlast).
    exists es, st'. rewrite Hlast. repeat split; try assumption.
    now rewrite Ht. }
  revert Hall st Hu Hex.
  induction ps as [|p ps IH]; intros Hall st Hu Hex.
  - exists [], st. cbn. repeat split; assumption.
  - cbn [upsert_each]. unfold bind at 1. rewrite upsert_run.
    assert (Hall' : forall q, In q ps -> p_contact_id q = cid)
      by (intros q Hq; apply Hall; now right).
    assert (Hp : p_contact_id p = cid) by (apply Hall; now left).
    cbn [find]. unfold store_verdict. rewrite Hp, Hex.
    destruct (upsert_error w (table st) p) as [message|] eqn:E;
      cbn [Sql.is_null]; cbv beta iota; unfold bind, ret.
    + match goal with |- context [upsert_each w ps ?s] =>
        destruct (IH Hall' s Hu Hex)
          as (es & st' & Hrun & Hlen & Hu' & Hlast & Hm) end.
      exists (Some message :: es), st'.
      rewrite Hrun. cbn [combine last_accepted List.length].
      cbn [table] in *.
      repeat split; [now rewrite Hlen | assumption | |].
      * destruct (last_accepted (combine ps es)); exact Hlast.
      * destruct (last_accepted (combine ps es)); exact Hm.
    + match goal with |- context [upsert_each w ps ?s] =>
        destruct (upsert_each_recorded cid ps Hall' s)
          as (es & st' & Hrun & Hlen & Ht & Hlast) end.
      { cbn [table]. rewrite <- Hp. apply existsb_after_insert. }
      exists (None :: es), st'.
      rewrite Hrun. cbn [combine last_accepted List.length].
      rewrite Hlast. cbn [table] in Ht.
      assert (Hex' : existsb (same_contact (p_contact_id p)) (table st) = false)
        by (now rewrite Hp).
      repeat split.
      * now rewrite Hlen.
      * rewrite Ht. now apply upsert_rows_unique.
      * exact Ht.
      * rewrite Ht, <- Hp. now apply upsert_rows_same.
Qed.

End Upserts.

(** C6. On a store that satisfies its UNIQUE constraint, run any
    sequence of upserts whose payloads all name the same contact. Every
    statement returns and the constraint still holds afterwards. A
    statement is accepted exactly when the contact has no record and the
    store has no other objection to the payload; every statement after an
    accepted one is rejected as a duplicate, so the last accepted payload
    of the sequence is the first one the store does not object to, if the
    contact had no record before, and none otherwise. If a statement was
    accepted, the table gained one row, it is the only record of that
    contact, and it carries the scope id, the vector, the fingerprint and
    the truncated source text of the last accepted payload; if none was
    accepted the table is as it was. *)
Theorem upsert_uniqueness w cid ps st :
  unique_contact_id (table st) ->
  (forall q, In q ps -> p_contact_id q = cid) ->
  exists es st',
    upsert_each w ps st = (inr es, st')
    /\ List.length es = List.length ps
    /\ unique_contact_id (table st')
    /\ last_accepted (combine ps es) = first_accepted w cid (table st) ps
    /\ match last_accepted (combine ps es) with
       | Some p =>
           exists r, table st' = (table st ++ [r])%list
                     /\ filter (same_contact cid) (table st') = [r]
                     /\ ce_contact_id r = cid
                     /\ ce_user_id r = p_user_id p
                     /\ embedding r = p_embedding p
                     /\ content_hash r = p_content_hash p
                     /\ source_text r = Some (p_source_text p)
       | None => table st' = table st
       end.
Proof.
  intros Hu Hall.
  destruct (upsert_each_spec w cid ps Hall st Hu)
    as (es & st' & Hrun & Hlen & Hu' & Hfirst & Hlast).
  exists es, st'. repeat (split; [assumption|]).
  destruct (last_accepted (combine ps es)) as [p|] eqn:E; [|exact Hlast].
  destruct Hlast as [Ht Hr].
  exists (inserted_row p). split; [exact Ht|]. split; [exact Hr|].
  assert (Hin : In (inserted_row p) (filter (same_contact cid) (table st')))
    by (rewrite Hr; now left).
  apply filter_In in Hin as [_ Hs]. apply same_contact_true in Hs.
  repeat split. exact Hs.
Qed.

(** Three statements for one contact on an empty store whose vectors
    have two dimensions: the first is accepted, the second is a
    duplicate, the third has the wrong dimension. *)
Example three_upserts_run :
  let out := upsert_each Sample.world_two_dimensions Sample.three_upserts
               (mkState [] empty_results []) in
  fst out = inr [None; Some duplicate_contact_id; Some "expected 2 dimensions"]
  /\ table (snd out)
     = [ mkContactEmbedding "c1" Sample.alice [1; 0]%Q "aa" (Some "Ann")
           (Some default_model_version) ].
Proof. split; reflexivity. Qed.

Lemma upsert_uniqueness_witness :
  let st := mkState [] empty_results [] in
  let p1 := mkEmbeddingPayload "c1" Sample.alice [1; 0]%Q "aa" "Ann" in
  exists es st',
    upsert_each Sample.world_two_dimensions Sample.three_upserts st = (inr es, st')
    /\ List.length es = List.length Sample.three_upserts
    /\ unique_contact_id (table st')
    /\ last_accepted (combine Sample.three_upserts es) = Some p1
    /\ exists r, table st' = (table st ++ [r])%list
                 /\ filter (same_contact "c1") (table st') = [r]
                 /\ ce_contact_id r = "c1"
                 /\ ce_user_id r = p_user_id p1
                 /\ embedding r = p_embedding p1
                 /\ content_hash r = p_content_hash p1
                 /\ source_text r = Some (p_source_text p1).
Proof.
  cbn zeta.
  destruct (upsert_uniqueness Sample.world_two_dimensions "c1"
              Sample.three_upserts (mkState [] empty_results []))
    as (es & st' & Hrun & Hlen & Hu & Hfirst & Hlast).
  - constructor.
  - intros q Hq; cbn in Hq.
    destruct Hq as [<- | [<- | [<- | []]]]; reflexivity.
  - exists es, st'.
    split; [exact Hrun|]. split; [exact Hlen|]. split; [exact Hu|].
    change (first_accepted Sample.world_two_dimensions "c1"
              (table (mkState [] empty_results [])) Sample.three_upserts)
      with (Some (mkEmbeddingPayload "c1" Sample.alice [1; 0]%Q "aa" "Ann"))
      in Hfirst.
    rewrite Hfirst in Hlast. split; [exact Hfirst | exact Hlast].
Defined.

(* ------------------------------------------------------------------ *)
(** ** Query validation *)

Lemma invalid_query_test v :
  invalid_query v <->
  Js.not v || negb (String.eqb (Js.typeof v) "string") = true.
Proof.
  destruct v as [| |b|q|s|]; cbn; try (split; [reflexivity | exact (fun _ => I)]).
  - rewrite orb_true_r. split; [reflexivity | exact (fun _ => I)].
  - rewrite orb_true_r. split; [reflexivity | exact (fun _ => I)].
  - rewrite orb_false_r. symmetry. apply String.eqb_eq.
Qed.

(** C9. Take a search request whose parsed body has a query that is
    absent, the empty string or not a string. Whoever sends it, the
    service makes no external call at all (none to the provider, none to
    the store), and answers with an error body and a status other than
    200; when the request is an authenticated POST the answer is the
    validation error: status 400, "Query is required". *)
Theorem empty_query_rejected w db req b st :
  json req = inr b ->
  invalid_query (query b) ->
  let out := serve_semantic_search w db req st in
  snd out = st
  /\ provider_calls (calls (snd out)) = provider_calls (calls st)
  /\ (exists response e,
         fst out = inr response
         /\ body response = ErrorBody e
         /\ status response <> 200)
  /\ (forall userId,
         authenticate w req = inr userId ->
         fst out = inr (mkResponse 400 (ErrorBody "Query is required"))).
Proof.
  intros Hb Hq. apply invalid_query_test in Hq. cbn zeta.
  unfold serve_semantic_search.
  destruct (authenticate w req) as [response | userId] eqn:Ha.
  - cbn [ret fst snd]. repeat split.
    + unfold authenticate in Ha.
      destruct (negb (method req =? "POST")).
      { inversion Ha; subst. do 2 eexists; cbn.
        repeat split; discriminate. }
      destruct (authorization req) as [h|].
      2:{ inversion Ha; subst. do 2 eexists; cbn.
          repeat split; discriminate. }
      destruct (h =? "").
      { inversion Ha; subst. do 2 eexists; cbn.
        repeat split; discriminate. }
      destruct (getUser w (Js.replace "Bearer " "" h)); inversion Ha; subst.
      do 2 eexists; cbn. repeat split; discriminate.
    + intros userId H; discriminate H.
  - unfold try_catch, bind, lift_result, ret. rewrite Hb, Hq. cbn [fst snd].
    repeat split.
    + do 2 eexists; cbn. repeat split; discriminate.
Qed.

Lemma empty_query_rejected_witness :
  let req := mkRequest "POST" (Some "Bearer alice-token")
               (inr (mkSearchBody (Js.JsString "") None (Some (9 # 10)%Q))) in
  let out := serve_semantic_search Sample.world Sample.db req
               (mkState Sample.sample_store empty_results []) in
  authenticate Sample.world req = inr Sample.alice
  /\ fst out = inr (mkResponse 400 (ErrorBody "Query is required"))
  /\ provider_calls (calls (snd out)) = [].
Proof.
  cbn zeta.
  pose (req := mkRequest "POST" (Some "Bearer alice-token")
                 (inr (mkSearchBody (Js.JsString "") None (Some (9 # 10)%Q)))).
  assert (Ha : authenticate Sample.world req = inr Sample.alice)
    by (vm_compute; reflexivity).
  destruct (empty_query_rejected Sample.world Sample.db req
              (mkSearchBody (Js.JsString "") None (Some (9 # 10)%Q))
              (mkState Sample.sample_store empty_results [])
              eq_refl eq_refl) as (_ & Hp & _ & H400).
  split; [exact Ha|]. split; [exact (H400 _ Ha) | exact Hp].
Defined.

(** The same request with a text goes to the provider and to the store. *)
Example search_with_text :
  let req := mkRequest "POST" (Some "Bearer alice-token")
               (inr (mkSearchBody (Js.JsString "tea") (Some 5%Z) None)) in
  let out := serve_semantic_search Sample.world Sample.db req
               (mkState Sample.sample_store empty_results []) in
  calls (snd out) = [EvProvider "tea"; EvFindSimilar Sample.alice]
  /\ fst out
     = inr (mkResponse 500
              (ErrorBody ("Search error: "
                          ++ "structure of query does not match function result type"))).
Proof. vm_compute. split; reflexivity. Qed.

(* ------------------------------------------------------------------ *)
(** ** Ownership and soft deletion on the two paths *)

(** The batch sweep only picks contacts the caller owns and that are
    not soft-deleted. *)
Lemma sweep_selects_own_contacts db userId n cid :
  In cid (select_contact_ids db userId n) ->
  exists c, In c (contacts db) /\ c_id c = cid
            /\ c_user_id c = userId /\ deleted_at c = None.
Proof.
  unfold select_contact_ids. intros H.
  apply in_map_iff in H as (c & Hid & Hc).
  apply firstn_in, filter_In in Hc as [Hin Hf].
  apply andb_true_iff in Hf as [Hu Hd]. apply String.eqb_eq in Hu.
  exists c. repeat split; try assumption.
  destruct (deleted_at c); [discriminate | reflexivity].
Qed.

(** With an id in the body, that id is taken as it is. *)
Lemma single_contact_taken_as_is db userId cid n :
  cid <> "" ->
  contact_ids_of db userId (mkEmbeddingsBody (Some cid) n) = [cid].
Proof.
  intros H. unfold contact_ids_of; cbn.
  apply String.eqb_neq in H. now rewrite H.
Qed.

Lemma filter_none {A : Type} (f : A -> bool) l :
  (forall x, In x l -> f x = false) -> filter f l = [].
Proof.
  induction l as [|x l IH]; cbn; intros H; [reflexivity|].
  rewrite (H x (or_introl eq_refl)). apply IH. intros y Hy. apply H. now right.
Qed.

Lemma left_join_in {A B : Type} (on : A -> B -> bool) la lb a o :
  In (a, o) (Sql.left_join on la lb) -> In a la.
Proof.
  unfold Sql.left_join. rewrite in_flat_map. intros (a' & Ha & Hin).
  destruct (filter (on a') lb) as [|b bs].
  - destruct Hin as [Heq | []]. now inversion Heq; subst.
  - apply in_map_iff in Hin as (b' & Heq & _). now inversion Heq; subst.
Qed.

(** A contact that does not exist composes the empty text. *)
Lemma generate_embedding_content_absent db cid :
  references_contacts db ->
  (forall c, In c (contacts db) -> c_id c <> cid) ->
  generate_embedding_content db cid = "".
Proof.
  intros [Hnotes Htags] Habs. unfold generate_embedding_content.
  rewrite (filter_none (fun row => c_id (fst row) =? cid)).
  2:{ intros [c o] Hin. apply left_join_in in Hin.
      apply String.eqb_neq. now apply Habs. }
  rewrite (filter_none (fun n => n_contact_id n =? cid)).
  2:{ intros n Hin. apply String.eqb_neq. intros Heq.
      destruct (Hnotes n Hin) as (c & Hc & Hid). apply (Habs c Hc). congruence. }
  rewrite (filter_none (fun row => ct_contact_id (fst row) =? cid)).
  2:{ intros [ct t] Hin. apply join_in in Hin as (Hct & _ & _).
      apply String.eqb_neq. intros Heq. cbn in Heq.
      destruct (Htags ct Hct) as (c & Hc & Hid). apply (Habs c Hc). congruence. }
  reflexivity.
Qed.

Lemma append_not_empty s t : s <> "" -> s ++ t <> "".
Proof. destruct s; [congruence | discriminate]. Qed.

Lemma concat_head_not_empty sep s rest :
  s <> "" -> String.concat sep (s :: rest) <> "".
Proof.
  intros H. destruct rest; cbn [String.concat]; [assumption|].
  now apply append_not_empty.
Qed.

(** Every stored contact with a name composes a non-empty text; neither
    [deleted_at] nor the owner is consulted. *)
Lemma generate_embedding_content_existing db c :
  (forall c', In c' (contacts db) -> first_name c' <> "") ->
  In c (contacts db) ->
  generate_embedding_content db (c_id c) <> "".
Proof.
  intros Hname Hin. unfold generate_embedding_content.
  set (rows := filter (fun row => c_id (fst row) =? c_id c)
                 (Sql.left_join (fun c0 cm => cm_contact_id cm =? c_id c0)
                    (contacts db) (contact_metadata db))).
  assert (Hrows : forall row, In row rows -> first_name (fst row) <> "").
  { intros [c' o] Hr. apply filter_In in Hr as [Hr _].
    apply left_join_in in Hr. now apply Hname. }
  assert (Hne : rows <> []).
  { unfold rows. intros Hnil.
    assert (Hex : exists o, In (c, o)
                    (Sql.left_join (fun c0 cm => cm_contact_id cm =? c_id c0)
                       (contacts db) (contact_metadata db))).
    { unfold Sql.left_join.
      destruct (filter (fun cm => cm_contact_id cm =? c_id c)
                  (contact_metadata db)) as [|m ms] eqn:E.
      - exists None. apply in_flat_map. exists c. split; [assumption|].
        rewrite E. now left.
      - exists (Some m). apply in_flat_map. exists c. split; [assumption|].
        rewrite E. now left. }
    destruct Hex as (o & Ho).
    assert (Hf : In (c, o) rows)
      by (apply filter_In; split; [assumption | apply String.eqb_refl]).
    unfold rows in Hf. rewrite Hnil in Hf. destruct Hf. }
  destruct rows as [|[c' o] rows'] eqn:E; [congruence|].
  cbn [map Sql.select_into hd_error].
  unfold Sql.concat_ws at 1. cbn [Sql.non_null].
  apply concat_head_not_empty.
  unfold contact_line, Sql.concat_ws. cbn [Sql.non_null].
  apply concat_head_not_empty.
  apply (Hrows (c', o)). now left.
Qed.

(** C7, evaluated where it breaks. Bob asks for the embedding of "c1",
    a contact that alice owns. The function answers 200 with one record
    created, and the stored record of "c1" has bob as its scope id, while
    the scope id of the contact is alice; nothing compares the two. *)
Theorem foreign_contact_written_under_caller_scope :
  let out := Sample.single_contact_request "bob-token" "c1" in
  fst out = inr (mkResponse 200 (EmbeddingsBodyOk true (mkResults 1 1 0 0 [])))
  /\ (exists r c,
         table (snd out) = [r]
         /\ In c (contacts Sample.db)
         /\ c_id c = ce_contact_id r
         /\ c_user_id c = Sample.alice
         /\ ce_user_id r = Sample.bob).
Proof.
  split; [vm_compute; reflexivity|].
  eexists. exists (Sample.person "c1" Sample.alice "Ann" None).
  split; [vm_compute; reflexivity|].
  split; [left; reflexivity|]. repeat split.
Qed.

(** C8, evaluated where it breaks. The composer returns the text of
    alice's soft-deleted contact "c6" and of bob's contact "b1" to
    whoever asks; a request of alice for either id is not skipped but
    embedded and stored. Only an id that matches no contact composes the
    empty text and is skipped. *)
Theorem compose_ignores_soft_delete_and_owner :
  generate_embedding_content Sample.db "c6" = "Zed"
  /\ generate_embedding_content Sample.db "b1" = "Bruno"
  /\ fst (Sample.single_contact_request "alice-token" "c6")
     = inr (mkResponse 200 (EmbeddingsBodyOk true (mkResults 1 1 0 0 [])))
  /\ fst (Sample.single_contact_request "alice-token" "b1")
     = inr (mkResponse 200 (EmbeddingsBodyOk true (mkResults 1 1 0 0 [])))
  /\ fst (Sample.single_contact_request "alice-token" "nobody")
     = inr (mkResponse 200 (EmbeddingsBodyOk true (mkResults 0 0 0 1 []))).
Proof. repeat split; vm_compute; reflexivity. Qed.

(* ================================================================== *)
(** * Further properties *)

(* ------------------------------------------------------------------ *)
(** ** What both edge functions do before the body *)

Lemma authenticate_rejection w {B : Type} (req : Request B) r :
  authenticate w req = inl r -> rejection r.
Proof.
  unfold authenticate, rejection.
  destruct (negb (method req =? "POST")); [intros H; inversion H; tauto|].
  destruct (authorization req) as [h|]; [|intros H; inversion H; tauto].
  destruct (h =? ""); [intros H; inversion H; tauto|].
  destruct (getUser w (Js.replace "Bearer " "" h)); intros H; inversion H; tauto.
Qed.

Lemma serve_generate_embeddings_rejected w db req st r :
  authenticate w req = inl r ->
  serve_generate_embeddings w db req st = (inr r, st).
Proof. intros H. unfold serve_generate_embeddings. now rewrite H. Qed.

Lemma serve_semantic_search_rejected w db req st r :
  authenticate w req = inl r ->
  serve_semantic_search w db req st = (inr r, st).
Proof. intros H. unfold serve_semantic_search. now rewrite H. Qed.

(** X1. A request that is not a POST, that has no Authorization header
    (or an empty one), or whose token the auth service does not accept is
    answered 405 "Method not allowed", 401 "Missing authorization" or 401
    "Unauthorized" by both edge functions, in that order of precedence;
    the body is not read, the store is left as it is and nothing is
    called. *)
Theorem rejected_requests_touch_nothing w db tbl :
  (forall (req : Request EmbeddingsBody),
      (method req <> "POST" ->
       handle_generate_embeddings w db req tbl
       = (inr (mkResponse 405 (ErrorBody "Method not allowed")),
          mkState tbl empty_results []))
      /\ (method req = "POST" ->
          authorization req = None \/ authorization req = Some "" ->
          handle_generate_embeddings w db req tbl
          = (inr (mkResponse 401 (ErrorBody "Missing authorization")),
             mkState tbl empty_results []))
      /\ (forall h, method req = "POST" -> authorization req = Some h ->
                    h <> "" -> getUser w (Js.replace "Bearer " "" h) = None ->
          handle_generate_embeddings w db req tbl
          = (inr (mkResponse 401 (ErrorBody "Unauthorized")),
             mkState tbl empty_results [])))
  /\ (forall (req : Request SearchBody),
         (method req <> "POST" ->
          handle_semantic_search w db req tbl
          = (inr (mkResponse 405 (ErrorBody "Method not allowed")),
             mkState tbl empty_results []))
         /\ (method req = "POST" ->
             authorization req = None \/ authorization req = Some "" ->
             handle_semantic_search w db req tbl
             = (inr (mkResponse 401 (ErrorBody "Missing authorization")),
                mkState tbl empty_results []))
         /\ (forall h, method req = "POST" -> authorization req = Some h ->
                       h <> "" -> getUser w (Js.replace "Bearer " "" h) = None ->
             handle_semantic_search w db req tbl
             = (inr (mkResponse 401 (ErrorBody "Unauthorized")),
                mkState tbl empty_results []))).
Proof.
  assert (A : forall (B : Type) (req : Request B),
             (method req <> "POST" ->
              authenticate w req
              = inl (mkResponse 405 (ErrorBody "Method not allowed")))
             /\ (method req = "POST" ->
                 authorization req = None \/ authorization req = Some "" ->
                 authenticate w req
                 = inl (mkResponse 401 (ErrorBody "Missing authorization")))
             /\ (forall h, method req = "POST" -> authorization req = Some h ->
                           h <> "" ->
                           getUser w (Js.replace "Bearer " "" h) = None ->
                 authenticate w req
                 = inl (mkResponse 401 (ErrorBody "Unauthorized")))).
  { intros B req. unfold authenticate. repeat split.
    - intros Hm. apply String.eqb_neq in Hm. now rewrite Hm.
    - intros Hm [Ha | Ha]; rewrite Hm, Ha; reflexivity.
    - intros h Hm Ha Hh Hu. apply String.eqb_neq in Hh.
      rewrite Hm, Ha; cbn. now rewrite Hh, Hu. }
  split; intros req; destruct (A _ req) as (A1 & A2 & A3).
  - unfold handle_generate_embeddings. repeat split.
    + intros H. now apply serve_generate_embeddings_rejected, A1.
    + intros H1 H2. now apply serve_generate_embeddings_rejected, A2.
    + intros h H1 H2 H3 H4.
      apply serve_generate_embeddings_rejected. now apply (A3 h).
  - unfold handle_semantic_search. repeat split.
    + intros H. now apply serve_semantic_search_rejected, A1.
    + intros H1 H2. now apply serve_semantic_search_rejected, A2.
    + intros h H1 H2 H3 H4.
      apply serve_semantic_search_rejected. now apply (A3 h).
Qed.

Lemma rejected_requests_touch_nothing_witness :
  handle_generate_embeddings Sample.world Sample.db
    (mkRequest "GET" None (inr (mkEmbeddingsBody None None))) Sample.sample_store
  = (inr (mkResponse 405 (ErrorBody "Method not allowed")),
     mkState Sample.sample_store empty_results [])
  /\ handle_semantic_search Sample.world Sample.db
       (mkRequest "POST" (Some "Bearer mallory")
          (inr (mkSearchBody (Js.JsString "tea") None None)))
       Sample.sample_store
     = (inr (mkResponse 401 (ErrorBody "Unauthorized")),
        mkState Sample.sample_store empty_results []).
Proof.
  destruct (rejected_requests_touch_nothing Sample.world Sample.db
              Sample.sample_store) as [HE HS].
  split.
  - apply (proj1 (HE _)). discriminate.
  - apply (proj2 (proj2 (HS _)) "Bearer mallory");
      [reflexivity | reflexivity | discriminate | vm_compute; reflexivity].
Defined.

Lemma substring_all s : String.substring 0 (String.length s) s = s.
Proof. induction s as [|c s IH]; cbn; [reflexivity | now rewrite IH]. Qed.

Lemma replace_bearer token : Js.replace "Bearer " "" ("Bearer " ++ token) = token.
Proof.
  unfold Js.replace.
  change ("Bearer " ++ token)
    with (String "B" (String "e" (String "a" (String "r"
            (String "e" (String "r" (String " " token))))))).
  cbn [String.index String.prefix Ascii.ascii_dec ascii_rec ascii_rect
       Bool.bool_dec bool_rec bool_rect sumbool_rec sumbool_rect
       String.length String.substring Nat.add Nat.sub].
  replace (String.prefix "" token) with true by (now destruct token).
  cbn [String.substring Nat.add Nat.sub String.length].
  rewrite Nat.sub_0_r.
  change ("" ++ "" ++ String.substring 0 (String.length token) token)
    with (String.substring 0 (String.length token) token).
  apply substring_all.
Qed.

(** X2. For a POST whose Authorization header is "Bearer " followed by a
    token, the user of the request is exactly the user the auth service
    returns for that token, and the request is answered 401 "Unauthorized"
    when it returns none. *)
Theorem bearer_token_authenticates w (B : Type) (req : Request B) token :
  method req = "POST" ->
  authorization req = Some ("Bearer " ++ token) ->
  authenticate w req
  = match getUser w token with
    | Some userId => inr userId
    | None => inl (mkResponse 401 (ErrorBody "Unauthorized"))
    end.
Proof.
  intros Hm Ha. unfold authenticate. rewrite Hm, Ha.
  rewrite String.eqb_refl. cbn [negb].
  replace (("Bearer " ++ token) =? "") with false by reflexivity.
  rewrite replace_bearer. reflexivity.
Qed.

Lemma bearer_token_authenticates_witness :
  authenticate Sample.world
    (mkRequest "POST" (Some ("Bearer " ++ "bob-token"))
       (inr (mkEmbeddingsBody None None)))
  = inr Sample.bob.
Proof.
  apply (bearer_token_authenticates Sample.world EmbeddingsBody
           (mkRequest "POST" (Some ("Bearer " ++ "bob-token"))
              (inr (mkEmbeddingsBody None None))) "bob-token");
    reflexivity.
Defined.

(* ------------------------------------------------------------------ *)
(** ** The answer of [generate-embeddings] *)

Lemma serve_generate_embeddings_run w db req st userId b :
  authenticate w req = inr userId ->
  json req = inr b ->
  serve_generate_embeddings w db req st
  = (inr (mkResponse 200
            (EmbeddingsBodyOk true
               (results (steps w db userId (contact_ids_of db userId b) st)))),
     steps w db userId (contact_ids_of db userId b) st).
Proof.
  intros Ha Hb. unfold serve_generate_embeddings. rewrite Ha.
  unfold try_catch, bind, lift_result. rewrite Hb.
  now rewrite process_contacts_returns.
Qed.

Lemma run_batch_steps w db userId ids tbl :
  snd (run_batch w db userId ids tbl)
  = steps w db userId ids (mkState tbl empty_results []).
Proof. unfold run_batch. now rewrite process_contacts_returns. Qed.

(** X3. For an authenticated request, a body that cannot be read is
    answered 500 with the message of the exception ("Internal server
    error" when it has none) and nothing is touched; any body that can be
    read is answered 200 with [success: true] and the counters of the
    batch run over the selected ids, whatever the number of per-contact
    errors, and those counters add up to the number of ids. *)
Theorem generate_embeddings_answer w db req tbl userId :
  authenticate w req = inr userId ->
  (forall message,
      json req = inl message ->
      handle_generate_embeddings w db req tbl
      = (inr (mkResponse 500
                (ErrorBody (if message =? "" then "Internal server error"
                            else message))),
         mkState tbl empty_results []))
  /\ (forall b,
         json req = inr b ->
         let ids := contact_ids_of db userId b in
         let out := snd (run_batch w db userId ids tbl) in
         handle_generate_embeddings w db req tbl
         = (inr (mkResponse 200 (EmbeddingsBodyOk true (results out))), out)
         /\ processed (results out) + skipped (results out)
            + List.length (errors (results out)) = List.length ids).
Proof.
  intros Ha. split.
  - intros message Hb. unfold handle_generate_embeddings,
      serve_generate_embeddings. rewrite Ha.
    unfold try_catch, bind, lift_result, ret, internal_error, Js.or_string.
    now rewrite Hb.
  - intros b Hb; cbn zeta. rewrite run_batch_steps. split.
    + unfold handle_generate_embeddings.
      now rewrite (serve_generate_embeddings_run w db req _ userId b Ha Hb).
    + pose proof (steps_totals w db userId (contact_ids_of db userId b)
                    (mkState tbl empty_results [])) as H.
      cbn zeta in H; cbn [results] in H. destruct H as [_ H].
      rewrite H. cbn. lia.
Qed.

Lemma generate_embeddings_answer_witness :
  let req := mkRequest "POST" (Some "Bearer alice-token")
               (inr (mkEmbeddingsBody None (Some 3%Z))) in
  let out := snd (run_batch Sample.world Sample.db Sample.alice
                    ["c1"; "c2"; "c3"] []) in
  handle_generate_embeddings Sample.world Sample.db req []
  = (inr (mkResponse 200 (EmbeddingsBodyOk true (results out))), out)
  /\ processed (results out) + skipped (results out)
     + List.length (errors (results out)) = 3.
Proof.
  cbn zeta.
  apply (proj2 (generate_embeddings_answer Sample.world Sample.db
                  (mkRequest "POST" (Some "Bearer alice-token")
                     (inr (mkEmbeddingsBody None (Some 3%Z))))
                  [] Sample.alice eq_refl)
           (mkEmbeddingsBody None (Some 3%Z)) eq_refl).
Defined.

(* ------------------------------------------------------------------ *)
(** ** Invariants of a batch run *)

(** A property kept by every iteration on an id of the list is kept by
    the loop. *)
Lemma steps_invariant w db userId ids (P : State -> Prop) :
  (forall cid st st', In cid ids -> iteration w db userId cid st st' ->
                      P st -> P st') ->
  forall st, P st -> P (steps w db userId ids st).
Proof.
  induction ids as [|cid ids IH]; intros Hstep st HP.
  - now rewrite steps_nil.
  - rewrite steps_cons. apply IH.
    + intros c s s' Hc. apply Hstep. now right.
    + apply (Hstep cid st); [now left | | assumption].
      apply process_contact_iteration.
Qed.

Lemma upserts_of_app l evs :
  upserts_of (l ++ evs) = (upserts_of l ++ upserts_of evs)%list.
Proof.
  induction l as [|e l IH]; [reflexivity|].
  destruct e; cbn; now rewrite ?IH.
Qed.

Lemma substring0_cons n c s :
  Js.substring0 n (String c s)
  = match Js.utf16_units c with
    | 0 => String c (Js.substring0 n s)
    | 1 =>
        match n with
        | 0 => EmptyString
        | S n' => String c (Js.substring0 n' s)
        end
    | _ =>
        match n with
        | 0 => EmptyString
        | 1 => Js.lead_surrogate c s
        | S (S n') => String c (Js.substring0 n' s)
        end
    end.
Proof. reflexivity. Qed.

Lemma utf16_units_bound c : Js.utf16_units c <= 2.
Proof.
  unfold Js.utf16_units.
  destruct (N_of_ascii c <? 128)%N; [lia|].
  destruct (N_of_ascii c <? 192)%N; [lia|].
  destruct (N_of_ascii c <? 240)%N; lia.
Qed.

Lemma utf16_units_continuation m :
  (128 <= m < 192)%N -> Js.utf16_units (ascii_of_N m) = 0.
Proof.
  intros Hm. unfold Js.utf16_units.
  rewrite N_ascii_embedding by lia.
  destruct (N.ltb_spec m 128); [lia|].
  destruct (N.ltb_spec m 192); [reflexivity | lia].
Qed.

(** An unpaired lead surrogate is one code unit. *)
Lemma lead_surrogate_length c s : Js.length (Js.lead_surrogate c s) <= 1.
Proof.
  unfold Js.lead_surrogate.
  destruct s as [|b1 [|b2 s]]; cbn [Js.length]; try lia.
  set (x := ((N_of_ascii c mod 8) * 256 + (N_of_ascii b1 mod 64) * 4
             + (N_of_ascii b2 mod 64) / 16 - 64)%N).
  assert (H1 : ((x / 64) mod 16 < 16)%N) by (apply N.mod_lt; discriminate).
  assert (H2 : (x mod 64 < 64)%N) by (apply N.mod_lt; discriminate).
  generalize dependent ((x / 64) mod 16)%N. intros y Hy.
  generalize dependent (x mod 64)%N. intros z Hz.
  rewrite (utf16_units_continuation (160 + y)) by lia.
  rewrite (utf16_units_continuation (128 + z)) by lia.
  change (Js.utf16_units (ascii_of_N 237)) with 1. lia.
Qed.

(** [substring(0, n)] has at most [n] code units. *)
Lemma substring0_length n s : Js.length (Js.substring0 n s) <= n.
Proof.
  revert n; induction s as [|c s IH]; intros n;
    [change (Js.substring0 n "") with ""; cbn; lia|].
  rewrite substring0_cons.
  pose proof (utf16_units_bound c) as Hb.
  destruct (Js.utf16_units c) as [|[|k]] eqn:E.
  - cbn [Js.length]. rewrite E. apply IH.
  - destruct n as [|n]; cbn [Js.length]; [lia|].
    rewrite E. specialize (IH n). lia.
  - destruct n as [|[|n]]; cbn [Js.length]; [lia | apply lead_surrogate_length |].
    rewrite E. specialize (IH n). lia.
Qed.

(** A string of at most [n] code units is its own [substring(0, n)]. *)
Lemma substring0_short n s :
  Js.length s <= n -> Js.substring0 n s = s.
Proof.
  revert n; induction s as [|c s IH]; intros n Hl; [reflexivity|].
  rewrite substring0_cons. cbn [Js.length] in Hl.
  destruct (Js.utf16_units c) as [|[|k]] eqn:E.
  - rewrite IH; [reflexivity | lia].
  - destruct n as [|n]; [lia|]. rewrite IH; [reflexivity | lia].
  - destruct n as [|[|n]]; [lia | lia |]. rewrite IH; [reflexivity | lia].
Qed.

(** On text of one-byte characters a code unit is a byte. *)
Lemma length_ascii s :
  (forall c, In c (list_ascii_of_string s) -> (N_of_ascii c < 128)%N) ->
  Js.length s = String.length s.
Proof.
  induction s as [|c s IH]; intros H; [reflexivity|].
  cbn [Js.length String.length].
  rewrite IH by (intros c' Hc'; apply H; now right).
  unfold Js.utf16_units.
  pose proof (H c (or_introl eq_refl)) as Hc.
  destruct (N.ltb_spec (N_of_ascii c) 128); [reflexivity | lia].
Qed.

(** X4. Every upsert a batch run issues is for a contact of the id list
    whose composed text is not empty, under the caller's user id, with the
    vector the provider returned for that text, the hash of that text,
    and as source text the first 500 UTF-16 code units of it: the whole
    text when it has no more than 500, which for a text of one-byte
    characters means no more than 500 characters. *)
Theorem upserts_carry_composed_text w db userId ids tbl p :
  In p (upserts_of (calls (snd (run_batch w db userId ids tbl)))) ->
  exists cid v,
    In cid ids
    /\ content_of db cid <> ""
    /\ embedding_of w (content_of db cid) = inr v
    /\ p = mkEmbeddingPayload cid userId v
             (generateHash w (content_of db cid))
             (Js.substring0 500 (content_of db cid))
    /\ Js.length (p_source_text p) <= 500
    /\ (Js.length (content_of db cid) <= 500 ->
        p_source_text p = content_of db cid)
    /\ ((forall c, In c (list_ascii_of_string (content_of db cid)) ->
                   (N_of_ascii c < 128)%N) ->
        String.length (content_of db cid) <= 500 ->
        p_source_text p = content_of db cid).
Proof.
  rewrite run_batch_steps. revert p.
  apply (steps_invariant w db userId ids
           (fun st => forall p, In p (upserts_of (calls st)) -> _)).
  - intros cid st st' Hcid Hit HP p.
    assert (Hnew : forall v, content_of db cid <> "" ->
                embedding_of w (content_of db cid) = inr v ->
                exists cid0 v0,
                  In cid0 ids /\ content_of db cid0 <> ""
                  /\ embedding_of w (content_of db cid0) = inr v0
                  /\ payload_of w db userId cid v
                     = mkEmbeddingPayload cid0 userId v0
                         (generateHash w (content_of db cid0))
                         (Js.substring0 500 (content_of db cid0))
                  /\ Js.length (p_source_text (payload_of w db userId cid v))
                     <= 500
                  /\ (Js.length (content_of db cid0) <= 500 ->
                      p_source_text (payload_of w db userId cid v)
                      = content_of db cid0)
                  /\ ((forall c, In c (list_ascii_of_string (content_of db cid0)) ->
                                 (N_of_ascii c < 128)%N) ->
                      String.length (content_of db cid0) <= 500 ->
                      p_source_text (payload_of w db userId cid v)
                      = content_of db cid0)).
    { intros v Hc He. exists cid, v.
      split; [assumption|]. split; [assumption|]. split; [assumption|].
      split; [reflexivity|]. cbn [payload_of p_source_text].
      split; [apply substring0_length|]. split.
      - intros Hl. now apply substring0_short.
      - intros Hascii Hl. apply substring0_short.
        now rewrite length_ascii. }
    inversion Hit; subst; cbn [calls]; rewrite upserts_of_app; cbn;
      rewrite ?app_nil_r; intros Hin; try (now apply HP).
    + apply in_app_or in Hin as [Hin | [<- | []]]; [now apply HP|].
      now apply Hnew.
    + apply in_app_or in Hin as [Hin | [<- | []]]; [now apply HP|].
      now apply Hnew.
  - intros p [].
Qed.

Lemma upserts_carry_composed_text_witness :
  exists cid v,
    In cid ["c1"; "c2"]
    /\ content_of Sample.db cid <> ""
    /\ embedding_of Sample.world (content_of Sample.db cid) = inr v
    /\ mkEmbeddingPayload "c2" Sample.alice (Sample.vector_of "Ben Oslo")
         "42656e204f736c6f" "Ben Oslo"
       = mkEmbeddingPayload cid Sample.alice v
           (generateHash Sample.world (content_of Sample.db cid))
           (Js.substring0 500 (content_of Sample.db cid))
    /\ Js.length "Ben Oslo" <= 500
    /\ (Js.length (content_of Sample.db cid) <= 500 ->
        "Ben Oslo" = content_of Sample.db cid)
    /\ ((forall c, In c (list_ascii_of_string (content_of Sample.db cid)) ->
                   (N_of_ascii c < 128)%N) ->
        String.length (content_of Sample.db cid) <= 500 ->
        "Ben Oslo" = content_of Sample.db cid).
Proof.
  apply (upserts_carry_composed_text Sample.world Sample.db Sample.alice
           ["c1"; "c2"] []
           (mkEmbeddingPayload "c2" Sample.alice (Sample.vector_of "Ben Oslo")
              "42656e204f736c6f" "Ben Oslo")).
  vm_compute. right; left; reflexivity.
Defined.

(** A character outside the basic plane counts for two: of the text
    "a" followed by U+1F600, [substring(0, 2)] keeps "a" and the lead
    surrogate U+D83D, and [substring(0, 3)] the whole text. *)
Example substring0_sample :
  let grin := String (ascii_of_N 240) (String (ascii_of_N 159)
                (String (ascii_of_N 152) (String (ascii_of_N 128) EmptyString))) in
  Js.length ("a" ++ grin) = 3
  /\ Js.substring0 1 ("a" ++ grin) = "a"
  /\ Js.substring0 2 ("a" ++ grin)
     = "a" ++ String (ascii_of_N 237) (String (ascii_of_N 160)
                (String (ascii_of_N 189) EmptyString))
  /\ Js.substring0 3 ("a" ++ grin) = "a" ++ grin.
Proof. repeat split. Qed.

(** X5. In a batch run the provider is called exactly once for every
    contact that is not skipped: the number of provider calls is
    [processed] plus the number of errors, that is the number of ids minus
    [skipped]. Upserts are issued only after a provider call, and every
    processed contact accounts for one of them. *)
Theorem provider_called_once_per_embedded_contact w db userId ids tbl :
  let out := snd (run_batch w db userId ids tbl) in
  List.length (provider_calls (calls out))
  = processed (results out) + List.length (errors (results out))
  /\ List.length (provider_calls (calls out)) + skipped (results out)
     = List.length ids
  /\ processed (results out) <= List.length (upserts_of (calls out))
  /\ List.length (upserts_of (calls out))
     <= List.length (provider_calls (calls out)).
Proof.
  cbn zeta.
  rewrite run_batch_steps.
  pose proof (steps_totals w db userId ids (mkState tbl empty_results []))
    as Htot.
  cbn zeta in Htot; cbn [results] in Htot. destruct Htot as [_ Htot].
  cbn in Htot.
  assert (H : List.length
                (provider_calls
                   (calls (steps w db userId ids (mkState tbl empty_results []))))
              = processed
                  (results (steps w db userId ids (mkState tbl empty_results [])))
                + List.length
                    (errors
                       (results
                          (steps w db userId ids (mkState tbl empty_results []))))
              /\ processed
                   (results (steps w db userId ids (mkState tbl empty_results [])))
                 <= List.length
                      (upserts_of
                         (calls
                            (steps w db userId ids (mkState tbl empty_results []))))
              /\ List.length
                   (upserts_of
                      (calls (steps w db userId ids (mkState tbl empty_results []))))
                 <= List.length
                      (provider_calls
                         (calls
                            (steps w db userId ids (mkState tbl empty_results []))))).
  { apply (steps_invariant w db userId ids
             (fun st =>
                List.length (provider_calls (calls st))
                = processed (results st) + List.length (errors (results st))
                /\ processed (results st)
                   <= List.length (upserts_of (calls st))
                /\ List.length (upserts_of (calls st))
                   <= List.length (provider_calls (calls st)))).
    - intros cid st st' _ Hit (H1 & H2 & H3).
      inversion Hit; subst; cbn [calls results];
        rewrite provider_calls_app, upserts_of_app, !length_app; cbn;
        rewrite ?length_app; cbn.
      + lia.
      + lia.
      + lia.
      + lia.
      + destruct (existing_of cid (table st)); cbn; lia.
    - cbn. lia. }
  destruct H as (H1 & H2 & H3). repeat split; try assumption. lia.
Qed.

Lemma existsb_filter_nil {A : Type} (f : A -> bool) l :
  existsb f l = false <-> filter f l = [].
Proof.
  induction l as [|x l IH]; cbn; [tauto|].
  destruct (f x); cbn; [split; discriminate | exact IH].
Qed.

Lemma upsert_rows_length p tbl :
  List.length (upsert_rows tbl p) = S (List.length tbl).
Proof. unfold upsert_rows. rewrite length_app. cbn. lia. Qed.

Lemma upsert_rows_keeps_contacts p tbl cid :
  In cid (map ce_contact_id tbl) ->
  In cid (map ce_contact_id (upsert_rows tbl p)).
Proof.
  unfold upsert_rows. rewrite map_app. intros H. apply in_or_app. now left.
Qed.

(** A write is accepted only for a contact that selects no record. *)
Lemma accepted_unrecorded w tbl p :
  store_verdict w tbl p = None -> existing_of (p_contact_id p) tbl = None.
Proof.
  intros H. apply store_verdict_none in H as [_ H].
  apply existsb_same_contact_false in H.
  unfold existing_of. now rewrite filter_same_contact_absent.
Qed.

(** X6. On a store that satisfies its UNIQUE constraint, a batch run
    keeps the constraint, adds exactly [created] rows, removes the record
    of no contact, and leaves the records of the contacts that are not in
    its id list exactly as they were. *)
Theorem batch_run_frame w db userId ids tbl :
  unique_contact_id tbl ->
  let out := snd (run_batch w db userId ids tbl) in
  unique_contact_id (table out)
  /\ List.length (table out) = List.length tbl + created (results out)
  /\ (forall cid, In cid (map ce_contact_id tbl) ->
                  In cid (map ce_contact_id (table out)))
  /\ (forall cid, ~ In cid ids ->
                  filter (same_contact cid) (table out)
                  = filter (same_contact cid) tbl).
Proof.
  intros Hu; cbn zeta. rewrite run_batch_steps.
  apply (steps_invariant w db userId ids
           (fun st =>
              unique_contact_id (table st)
              /\ List.length (table st) = List.length tbl + created (results st)
              /\ (forall cid, In cid (map ce_contact_id tbl) ->
                              In cid (map ce_contact_id (table st)))
              /\ (forall cid, ~ In cid ids ->
                              filter (same_contact cid) (table st)
                              = filter (same_contact cid) tbl))).
  - intros cid st st' Hcid Hit (H1 & H2 & H3 & H4).
    inversion Hit; subst; cbn [table results]; try (cbn; tauto).
    match goal with
    | H : store_verdict _ _ _ = None |- _ =>
        pose proof (accepted_unrecorded _ _ _ H) as Hnone;
        apply store_verdict_none in H as [_ Habs]
    end.
    cbn [payload_of p_contact_id] in Hnone, Habs. rewrite Hnone.
    repeat split.
    + now apply upsert_rows_unique.
    + rewrite upsert_rows_length. cbn. lia.
    + intros c Hc. now apply upsert_rows_keeps_contacts, H3.
    + intros c Hc. rewrite upsert_rows_other; [now apply H4|].
      cbn. intros ->. contradiction.
  - cbn. repeat split; [assumption | lia | tauto].
Qed.

Lemma batch_run_frame_witness :
  let out := snd (run_batch Sample.world Sample.db Sample.alice
                    ["c1"; "c3"] Sample.stored_cat) in
  unique_contact_id (table out)
  /\ List.length (table out)
     = List.length Sample.stored_cat + created (results out)
  /\ (forall cid, In cid (map ce_contact_id Sample.stored_cat) ->
                  In cid (map ce_contact_id (table out)))
  /\ (forall cid, ~ In cid ["c1"; "c3"] ->
                  filter (same_contact cid) (table out)
                  = filter (same_contact cid) Sample.stored_cat).
Proof.
  apply (batch_run_frame Sample.world Sample.db Sample.alice
           ["c1"; "c3"] Sample.stored_cat).
  repeat constructor. cbn. tauto.
Defined.

(* ------------------------------------------------------------------ *)
(** ** The sweep *)

Lemma contact_ids_of_sweep db userId b :
  asks_sweep b ->
  contact_ids_of db userId b
  = map c_id (firstn (Z.to_nat (sweep_size b)) (sweepable db userId)).
Proof.
  unfold asks_sweep, contact_ids_of, sweep_size, sweepable, select_contact_ids.
  intros [H | H]; rewrite H; reflexivity.
Qed.

Lemma nodup_map_filter {A B : Type} (g : A -> B) (f : A -> bool) l :
  NoDup (map g l) -> NoDup (map g (filter f l)).
Proof.
  induction l as [|x l IH]; cbn; intros H; [constructor|].
  inversion H as [|? ? Hnotin Hnd]; subst.
  destruct (f x); cbn; [constructor|]; [|now apply IH | now apply IH].
  intros Hin. apply Hnotin.
  apply in_map_iff in Hin as (y & Hy & Hyin).
  apply filter_In in Hyin as [Hyin _].
  apply in_map_iff. now exists y.
Qed.

Lemma nodup_map_firstn {A B : Type} (g : A -> B) n l :
  NoDup (map g l) -> NoDup (map g (firstn n l)).
Proof.
  revert l; induction n as [|n IH]; intros l H; cbn; [constructor|].
  destruct l as [|x l]; cbn; [constructor|].
  inversion H as [|? ? Hnotin Hnd]; subst.
  constructor; [|now apply IH].
  intros Hin. apply Hnotin.
  apply in_map_iff in Hin as (y & Hy & Hyin).
  apply firstn_in in Hyin. apply in_map_iff. now exists y.
Qed.

(** X7. When the body names no contact (or an empty id), the ids the
    batch works on are ids of contacts that the caller owns and that are
    not soft-deleted: never more than [batchSize] (50 by default), none
    when [batchSize] is zero or negative, all of them when there are at
    most [batchSize], and without repetition when [contacts.id] is a
    key. *)
Theorem sweep_selection db userId b :
  asks_sweep b ->
  let ids := contact_ids_of db userId b in
  (Z.of_nat (List.length ids) <= Z.max 0 (sweep_size b))%Z
  /\ (forall cid, In cid ids ->
                  exists c, In c (contacts db) /\ c_id c = cid
                            /\ c_user_id c = userId /\ deleted_at c = None)
  /\ ((sweep_size b <= 0)%Z -> ids = [])
  /\ ((Z.of_nat (List.length (sweepable db userId)) <= sweep_size b)%Z ->
      forall c, In c (contacts db) -> c_user_id c = userId ->
                deleted_at c = None -> In (c_id c) ids)
  /\ (unique_contact_key db -> NoDup ids).
Proof.
  intros Hs; cbn zeta. rewrite (contact_ids_of_sweep db userId b Hs).
  repeat split.
  - rewrite length_map, length_firstn. lia.
  - intros cid Hin. apply in_map_iff in Hin as (c & Hid & Hc).
    apply firstn_in in Hc. unfold sweepable in Hc.
    apply filter_In in Hc as [Hc Hf].
    apply andb_true_iff in Hf as [Hu Hd]. apply String.eqb_eq in Hu.
    exists c. repeat split; try assumption.
    destruct (deleted_at c); [discriminate | reflexivity].
  - intros Hn. replace (Z.to_nat (sweep_size b)) with 0 by lia. reflexivity.
  - intros Hall c Hc Hu Hd.
    rewrite firstn_all2 by lia.
    apply in_map. unfold sweepable. apply filter_In. split; [assumption|].
    rewrite Hu, String.eqb_refl, Hd. reflexivity.
  - intros Hk. unfold sweepable.
    now apply nodup_map_firstn, nodup_map_filter.
Qed.

Lemma sweep_selection_witness :
  let b := mkEmbeddingsBody None (Some 2%Z) in
  let ids := contact_ids_of Sample.db Sample.alice b in
  (Z.of_nat (List.length ids) <= Z.max 0 (sweep_size b))%Z
  /\ (forall cid, In cid ids ->
                  exists c, In c (contacts Sample.db) /\ c_id c = cid
                            /\ c_user_id c = Sample.alice
                            /\ deleted_at c = None)
  /\ ((sweep_size b <= 0)%Z -> ids = [])
  /\ ((Z.of_nat (List.length (sweepable Sample.db Sample.alice))
       <= sweep_size b)%Z ->
      forall c, In c (contacts Sample.db) -> c_user_id c = Sample.alice ->
                deleted_at c = None -> In (c_id c) ids)
  /\ (unique_contact_key Sample.db -> NoDup ids).
Proof.
  apply (sweep_selection Sample.db Sample.alice (mkEmbeddingsBody None (Some 2%Z))).
  left; reflexivity.
Defined.

Lemma upsert_rows_in p tbl r :
  In r (upsert_rows tbl p) ->
  In r tbl \/ (ce_contact_id r = p_contact_id p /\ ce_user_id r = p_user_id p).
Proof.
  unfold upsert_rows.
  intros H. apply in_app_or in H as [H | [<- | []]]; [now left | right].
  split; reflexivity.
Qed.

(** X8. A sweep keeps the scope invariant of the store: if every stored
    record has the scope id of the contact it belongs to, so has every
    record stored after a request that names no contact, whoever sends
    it. *)
Theorem sweep_keeps_scope_of_owner w db req tbl userId b :
  authenticate w req = inr userId ->
  json req = inr b ->
  asks_sweep b ->
  Forall (scope_matches_owner db) tbl ->
  Forall (scope_matches_owner db)
    (table (snd (handle_generate_embeddings w db req tbl))).
Proof.
  intros Ha Hb Hs Hinv. unfold handle_generate_embeddings.
  rewrite (serve_generate_embeddings_run w db req _ userId b Ha Hb).
  cbn [snd].
  apply (steps_invariant w db userId (contact_ids_of db userId b)
           (fun st => Forall (scope_matches_owner db) (table st)));
    [|exact Hinv].
  intros cid st st' Hcid Hit HP.
  inversion Hit; subst; cbn [table]; try assumption.
  rewrite Forall_forall in *. intros r Hr.
  apply upsert_rows_in in Hr as [Hr | [Hid Hu]]; [now apply HP|].
  cbn [payload_of p_contact_id p_user_id] in Hid, Hu.
  rewrite (contact_ids_of_sweep db userId b Hs) in Hcid.
  destruct (sweep_selects_own_contacts db userId (sweep_size b) cid Hcid)
    as (c & Hc & Hcid' & Hcu & _).
  exists c. repeat split; congruence.
Qed.

Lemma sweep_keeps_scope_of_owner_witness :
  Forall (scope_matches_owner Sample.db)
    (table (snd (handle_generate_embeddings Sample.world Sample.db
                   (mkRequest "POST" (Some "Bearer bob-token")
                      (inr (mkEmbeddingsBody None None)))
                   Sample.stored_cat))).
Proof.
  apply (sweep_keeps_scope_of_owner Sample.world Sample.db _ _ Sample.bob
           (mkEmbeddingsBody None None)).
  - vm_compute; reflexivity.
  - reflexivity.
  - left; reflexivity.
  - repeat constructor.
    exists (Sample.person "c3" Sample.alice "Cat" None).
    cbn. repeat split. tauto.
Defined.

(* ------------------------------------------------------------------ *)
(** ** The fingerprint *)

Lemma hex_byte_ok_all b : hex_byte_ok b = true.
Proof. destruct b; vm_compute; reflexivity. Qed.

Lemma hex_byte_shape b :
  exists c1 c2,
    hex_byte b = String c1 (String c2 "")
    /\ In c1 hex_chars /\ In c2 hex_chars
    /\ unhex_byte c1 c2 = Some b.
Proof.
  pose proof (hex_byte_ok_all b) as H. unfold hex_byte_ok in H.
  destruct (hex_byte b) as [|c1 [|c2 [|c3 s]]]; try discriminate.
  apply andb_true_iff in H as [H H3]. apply andb_true_iff in H as [H1 H2].
  exists c1, c2. split; [reflexivity|].
  unfold is_hex_char in H1, H2.
  apply existsb_exists in H1 as (d1 & Hd1 & E1).
  apply existsb_exists in H2 as (d2 & Hd2 & E2).
  apply Ascii.eqb_eq in E1, E2. subst d1 d2. repeat split; try assumption.
  destruct (unhex_byte c1 c2) as [b'|]; [|discriminate].
  apply Byte.byte_dec_bl in H3. now subst.
Qed.

Lemma generateHash_hex w content :
  generateHash w content
  = String.concat "" (map hex_byte (sha256 w (Js.encode content))).
Proof. reflexivity. Qed.

Lemma append_empty_r s : s ++ "" = s.
Proof.
  induction s as [|c s IH]; [reflexivity|].
  change (String c s ++ "") with (String c (s ++ "")). now rewrite IH.
Qed.

Lemma concat_hex_cons b l :
  exists c1 c2,
    String.concat "" (map hex_byte (b :: l))
    = String c1 (String c2 (String.concat "" (map hex_byte l)))
    /\ In c1 hex_chars /\ In c2 hex_chars /\ unhex_byte c1 c2 = Some b.
Proof.
  destruct (hex_byte_shape b) as (c1 & c2 & Hb & H1 & H2 & Hu).
  exists c1, c2. repeat split; try assumption.
  cbn [map String.concat]. rewrite Hb.
  destruct (map hex_byte l) as [|x xs] eqn:E; reflexivity.
Qed.

(** X9. The fingerprint is the digest written in lowercase hexadecimal,
    two characters per byte: it is twice as long as the digest (64
    characters for a 32-byte digest), it holds only the characters 0-9 and
    a-f, and reading it back gives the digest. Two texts therefore have
    the same fingerprint exactly when they have the same digest. *)
Theorem fingerprint_is_hex_of_digest w content :
  let digest := sha256 w (Js.encode content) in
  String.length (generateHash w content) = 2 * List.length digest
  /\ Forall (fun c => In c hex_chars)
       (list_ascii_of_string (generateHash w content))
  /\ unhex (generateHash w content) = Some digest
  /\ forall content',
       generateHash w content' = generateHash w content
       <-> sha256 w (Js.encode content') = digest.
Proof.
  cbn zeta.
  assert (H : forall l,
             String.length (String.concat "" (map hex_byte l))
             = 2 * List.length l
             /\ Forall (fun c => In c hex_chars)
                  (list_ascii_of_string (String.concat "" (map hex_byte l)))
             /\ unhex (String.concat "" (map hex_byte l)) = Some l).
  { induction l as [|b l (IH1 & IH2 & IH3)].
    - repeat split. constructor.
    - destruct (concat_hex_cons b l) as (c1 & c2 & -> & H1 & H2 & Hu).
      repeat split.
      + cbn [String.length]. rewrite IH1. cbn [List.length]. lia.
      + cbn [list_ascii_of_string].
        constructor; [exact H1|]. constructor; [exact H2 | exact IH2].
      + cbn [unhex]. now rewrite Hu, IH3. }
  rewrite !generateHash_hex.
  destruct (H (sha256 w (Js.encode content))) as (H1 & H2 & H3).
  repeat split; try assumption.
  - intros E. rewrite !generateHash_hex in E.
    destruct (H (sha256 w (Js.encode content'))) as (_ & _ & H3').
    rewrite E, H3 in H3'. congruence.
  - intros E. rewrite !generateHash_hex. now rewrite E.
Qed.

(* ------------------------------------------------------------------ *)
(** ** The answer of [semantic-search] *)




(* ------------------------------------------------------------------ *)
(** ** AI insights: clean-up and the active view *)

Lemma cleanup_where_true now i :
  cleanup_where now i = true <->
  exists e, expires_at i = Some e /\ (e < now - thirty_days)%Z
            /\ is_acted_upon i = Some false.
Proof.
  unfold cleanup_where, Sql.is_null.
  destruct (expires_at i) as [e|]; cbn [negb andb].
  - rewrite andb_true_iff, Z.ltb_lt. split.
    + intros [H1 H2]. exists e. repeat split; [assumption|].
      unfold is_false in H2.
      destruct (is_acted_upon i) as [[|]|]; try discriminate. reflexivity.
    + intros (e' & He & Hlt & Ha). inversion He; subst.
      rewrite Ha. split; [assumption | reflexivity].
  - split; [discriminate | intros (e & He & _); discriminate].
Qed.

Lemma filter_length_split {A : Type} (f : A -> bool) l :
  List.length (filter f l) + List.length (filter (fun a => negb (f a)) l)
  = List.length l.
Proof.
  induction l as [|a l IH]; cbn; [reflexivity|].
  destruct (f a); cbn; lia.
Qed.

(** X14. [cleanup_expired_insights] returns the number of rows it
    deletes. It deletes exactly the insights that have an expiry date more
    than 30 days in the past and whose [is_acted_upon] flag is FALSE: an
    insight that was acted upon, whose flag is NULL, that has no expiry
    date, or that expired 30 days ago or less stays. Calling it again at
    the same time deletes nothing. *)
Theorem cleanup_deletes_long_expired_only now tbl :
  let count := fst (cleanup_expired_insights now tbl) in
  let left := snd (cleanup_expired_insights now tbl) in
  (count + Z.of_nat (List.length left) = Z.of_nat (List.length tbl))%Z
  /\ (forall i,
         In i left <->
         In i tbl
         /\ ~ (exists e, expires_at i = Some e /\ (e < now - thirty_days)%Z
                         /\ is_acted_upon i = Some false))
  /\ (forall i, In i tbl ->
                is_acted_upon i <> Some false \/ expires_at i = None
                \/ (exists e, expires_at i = Some e
                              /\ (now - thirty_days <= e)%Z) ->
                In i left)
  /\ cleanup_expired_insights now left = (0%Z, left).
Proof.
  cbn zeta. unfold cleanup_expired_insights; cbn [fst snd].
  split; [|split; [|split]].
  - pose proof (filter_length_split (cleanup_where now) tbl). lia.
  - intros i. rewrite filter_In, negb_true_iff, <- cleanup_where_true.
    split; intros [H1 H2]; (split; [assumption|]).
    + now rewrite H2.
    + now destruct (cleanup_where now i).
  - intros i Hin Hkeep. apply filter_In. split; [assumption|].
    apply negb_true_iff. destruct (cleanup_where now i) eqn:E; [|reflexivity].
    apply cleanup_where_true in E as (e & He & Hlt & Ha).
    destruct Hkeep as [H | [H | (e' & He' & Hle)]]; try congruence.
    rewrite He in He'. inversion He'; subst. lia.
  - assert (Hnone : filter (cleanup_where now)
                      (filter (fun i => negb (cleanup_where now i)) tbl) = []).
    { apply filter_none. intros i Hi. apply filter_In in Hi as [_ Hi].
      now apply negb_true_iff in Hi. }
    rewrite Hnone. cbn [List.length Z.of_nat]. f_equal. clear Hnone.
    induction tbl as [|i tbl IH]; cbn; [reflexivity|].
    destruct (cleanup_where now i) eqn:E; cbn; [exact IH|].
    rewrite E. cbn. now rewrite IH.
Qed.

Lemma active_where_true now i c :
  active_where now (i, c) = true <-> shown now i /\ deleted_at c = None.
Proof.
  unfold active_where, shown, is_false, Sql.is_null; cbn [fst snd].
  rewrite !andb_true_iff. split.
  - intros [[H1 H2] H3]. repeat split.
    + destruct (is_dismissed i) as [[|]|]; try discriminate. reflexivity.
    + destruct (expires_at i) as [e|]; [right | now left].
      exists e. split; [reflexivity | now apply Z.ltb_lt].
    + destruct (deleted_at c); [discriminate | reflexivity].
  - intros [[H1 H2] H3]. rewrite H1, H3. repeat split.
    destruct H2 as [-> | (e & -> & Hlt)]; [reflexivity | now apply Z.ltb_lt].
Qed.

(** X15. At any time the view [active_ai_insights] shows exactly the
    insights that are not dismissed (a NULL flag hides the insight), that
    have no expiry date or one in the future, and whose contact exists and
    is not soft-deleted, each with the names of its contact; the rows come
    newest first. *)
Theorem active_view_contents now db tbl :
  (forall r,
      In r (active_ai_insights now db tbl) <->
      exists i c,
        In i tbl /\ In c (contacts db) /\ ai_contact_id i = c_id c
        /\ shown now i /\ deleted_at c = None
        /\ r = mkActiveInsight i (first_name c) (last_name c) (company c))
  /\ StronglySorted
       (fun a b => (ai_created_at (av_insight b)
                    <= ai_created_at (av_insight a))%Z)
       (active_ai_insights now db tbl).
Proof.
  unfold active_ai_insights. split.
  - intros r. rewrite in_map_iff. split.
    + intros ([i c] & <- & Hin).
      apply order_by_in, filter_In in Hin as [Hj Hw].
      apply join_in in Hj as (Hi & Hc & Hon).
      apply String.eqb_eq in Hon. apply active_where_true in Hw as [Hs Hd].
      exists i, c. cbn [fst snd]. repeat (split; [assumption|]). reflexivity.
    + intros (i & c & Hi & Hc & Hon & Hs & Hd & ->).
      exists (i, c). split; [reflexivity|].
      apply order_by_in, filter_In. split.
      * apply join_in. repeat split; try assumption. now apply String.eqb_eq.
      * apply active_where_true. now split.
  - apply map_strongly_sorted. cbn [av_insight].
    apply Sorted_StronglySorted.
    + intros a b c Hab Hbc. cbv beta in *. lia.
    + apply sorted_weaken with (R := fun a b => latest_first a b = true).
      * intros a b Hab. unfold latest_first in Hab. now apply Z.leb_le.
      * apply order_by_sorted. intros a b Hab. unfold latest_first in *.
        apply Z.leb_le. apply Z.leb_gt in Hab. lia.
Qed.

Lemma join_cons {A B : Type} (on : A -> B -> bool) a la lb :
  Sql.join on (a :: la) lb
  = (map (fun b => (a, b)) (filter (on a) lb) ++ Sql.join on la lb)%list.
Proof. reflexivity. Qed.

(** X16. Clean-up never removes an insight the view shows: for a clean-up
    run at time [now], the view read at any time from 30 days before [now]
    onwards is the same on the table the clean-up leaves as on the table
    it found. *)
Theorem cleanup_keeps_active_view now now' db tbl :
  (now - thirty_days <= now')%Z ->
  active_ai_insights now' db (snd (cleanup_expired_insights now tbl))
  = active_ai_insights now' db tbl.
Proof.
  intros Hnow. unfold active_ai_insights, cleanup_expired_insights; cbn [snd].
  do 2 f_equal.
  induction tbl as [|i tbl IH]; [reflexivity|].
  cbn [filter]. destruct (cleanup_where now i) eqn:E; cbn [negb].
  - assert (Hn : filter (active_where now')
                   (map (fun b => (i, b))
                      (filter (fun c => ai_contact_id i =? c_id c)
                         (contacts db))) = []).
    { apply filter_none.
      intros [i' c] Hin. apply in_map_iff in Hin as (c' & Heq & _).
      inversion Heq; subst i' c'.
      apply cleanup_where_true in E as (e & He & Hlt & _).
      destruct (active_where now' (i, c)) eqn:Ew; [|reflexivity].
      apply active_where_true in Ew as [[_ [Hn | (e' & He' & Hlt')]] _];
        [congruence|].
      rewrite He in He'. inversion He'; subst. lia. }
    rewrite IH, join_cons, filter_app, Hn. reflexivity.
  - rewrite !join_cons, !filter_app. now rewrite IH.
Qed.

Lemma cleanup_keeps_active_view_witness :
  let old := mkAiInsight "i1" "c1" Sample.alice memory "Tea" "Likes tea"
               None None None (Some false) (Some false) None 10 (Some 20%Z) in
  let live := mkAiInsight "i2" "c2" Sample.alice opportunity "Call" "Call Ben"
                None None None (Some false) (Some false) None 30 None in
  active_ai_insights 5000000 Sample.db
    (snd (cleanup_expired_insights 5000000 [old; live]))
  = active_ai_insights 5000000 Sample.db [old; live].
Proof.
  apply (cleanup_keeps_active_view 5000000 5000000 Sample.db).
  discriminate.
Defined.

Example cleanup_sample :
  let old := mkAiInsight "i1" "c1" Sample.alice memory "Tea" "Likes tea"
               None None None (Some false) (Some false) None 10 (Some 20%Z) in
  let live := mkAiInsight "i2" "c2" Sample.alice opportunity "Call" "Call Ben"
                None None None (Some false) (Some false) None 30 None in
  cleanup_expired_insights 5000000 [old; live] = (1%Z, [live])
  /\ map av_first_name (active_ai_insights 5000000 Sample.db [old; live])
     = ["Ben"].
Proof. split; reflexivity. Qed.

(* ------------------------------------------------------------------ *)
(** ** Composition and new notes *)

Lemma insert_row_app_left {A : Type} (le : A -> A -> bool) a pre rest :
  existsb (le a) pre = true ->
  Sql.insert_row le a (pre ++ rest) = (Sql.insert_row le a pre ++ rest)%list.
Proof.
  induction pre as [|y pre IH]; cbn; [discriminate|].
  destruct (le a y); cbn; [reflexivity|]. intros H. now rewrite IH.
Qed.

Lemma insert_row_app_right {A : Type} (le : A -> A -> bool) a pre rest :
  existsb (le a) pre = false ->
  Sql.insert_row le a (pre ++ rest) = (pre ++ Sql.insert_row le a rest)%list.
Proof.
  induction pre as [|y pre IH]; cbn; [reflexivity|].
  destruct (le a y); cbn; [discriminate|]. intros H. now rewrite IH.
Qed.

(** Sorting a list with one more row at its end: the row lands after the
    rows that are at least as new, which keep their places. *)
Lemma order_by_newest_first_append l n :
  exists pre post,
    Sql.order_by newest_first (l ++ [n]) = (pre ++ n :: post)%list
    /\ Sql.order_by newest_first l = (pre ++ post)%list
    /\ Forall (fun m => (n_created_at n <= n_created_at m)%Z) pre
    /\ Forall (fun m => (n_created_at m < n_created_at n)%Z) post
    /\ List.length pre
       = List.length (filter (fun m => (n_created_at n <=? n_created_at m)%Z) l).
Proof.
  induction l as [|a l (pre & post & Hn & Hl & Hpre & Hpost & Hlen)].
  - exists [], []. repeat split; constructor.
  - change (Sql.order_by newest_first ((a :: l) ++ [n]))
      with (Sql.insert_row newest_first a (Sql.order_by newest_first (l ++ [n]))).
    change (Sql.order_by newest_first (a :: l))
      with (Sql.insert_row newest_first a (Sql.order_by newest_first l)).
    rewrite Hn, Hl. cbn [filter].
    destruct (existsb (newest_first a) pre) eqn:Ex.
    + (* a goes among the rows at least as new as n *)
      exists (Sql.insert_row newest_first a pre), post.
      rewrite !insert_row_app_left by assumption.
      apply existsb_exists in Ex as (y & Hy & Hay).
      unfold newest_first in Hay. apply Z.leb_le in Hay.
      rewrite Forall_forall in Hpre. pose proof (Hpre y Hy) as Hny.
      assert (Han : (n_created_at n <=? n_created_at a)%Z = true)
        by (apply Z.leb_le; lia).
      rewrite Han. repeat split; try assumption.
      * rewrite Forall_forall. intros m Hm.
        apply insert_row_in in Hm as [-> | Hm]; [lia | now apply Hpre].
      * rewrite insert_row_length. cbn. now rewrite Hlen.
    + rewrite !insert_row_app_right by assumption.
      destruct (Z.leb_spec (n_created_at n) (n_created_at a)) as [Hna | Han].
      * (* a is at least as new as n, and older than all of pre *)
        exists (pre ++ [a])%list, post.
        assert (Hin : Sql.insert_row newest_first a (n :: post) = a :: n :: post).
        { cbn. unfold newest_first at 1.
          now replace (n_created_at n <=? n_created_at a)%Z with true
            by (symmetry; apply Z.leb_le; exact Hna). }
        assert (Hip : Sql.insert_row newest_first a post = a :: post).
        { destruct post as [|y post]; [reflexivity|]. cbn.
          inversion Hpost as [|? ? Hy _]; subst. unfold newest_first at 1.
          now replace (n_created_at y <=? n_created_at a)%Z with true
            by (symmetry; apply Z.leb_le; lia). }
        rewrite Hin, Hip, <- !app_assoc. cbn [app]. repeat split.
        -- apply Forall_app. split; [assumption | now repeat constructor].
        -- assumption.
        -- rewrite length_app. cbn. rewrite Hlen. lia.
      * (* a is older than n *)
        exists pre, (Sql.insert_row newest_first a post).
        assert (Hin : Sql.insert_row newest_first a (n :: post)
                      = n :: Sql.insert_row newest_first a post).
        { cbn. unfold newest_first at 1.
          now replace (n_created_at n <=? n_created_at a)%Z with false
            by (symmetry; apply Z.leb_gt; exact Han). }
        rewrite Hin. repeat split; try assumption.
        rewrite Forall_forall in *. intros m Hm.
        apply insert_row_in in Hm as [-> | Hm]; [lia | now apply Hpost].
Qed.

Lemma firstn_app_left {A : Type} n (l1 l2 : list A) :
  n <= List.length l1 -> firstn n (l1 ++ l2) = firstn n l1.
Proof.
  intros H. rewrite firstn_app.
  replace (n - List.length l1) with 0 by lia. cbn. apply app_nil_r.
Qed.

Lemma filter_length_le {A : Type} (f g : A -> bool) l :
  (forall a, f a = true -> g a = true) ->
  List.length (filter f l) <= List.length (filter g l).
Proof.
  intros Hfg. induction l as [|a l IH]; cbn; [lia|].
  destruct (f a) eqn:E.
  - rewrite (Hfg a E). cbn. lia.
  - destruct (g a); cbn; lia.
Qed.

(** With pairwise distinct keys there is one way to order the rows: any
    permutation that is sorted is the list the stable sort returns. *)
Lemma sorted_distinct_strict (l : list Note) :
  NoDup (map n_created_at l) ->
  StronglySorted (fun a b => (n_created_at b <= n_created_at a)%Z) l ->
  StronglySorted (fun a b => (n_created_at b < n_created_at a)%Z) l.
Proof.
  induction l as [|a l IH]; intros Hnd Hs; [constructor|].
  inversion Hnd as [|? ? Hnotin Hnd']; subst.
  inversion Hs as [|? ? Hs' Hall]; subst.
  constructor; [now apply IH|].
  rewrite Forall_forall in *. intros b Hb.
  pose proof (Hall b Hb) as Hle.
  assert (Hne : n_created_at b <> n_created_at a).
  { intros Heq. apply Hnotin. rewrite <- Heq. now apply in_map. }
  lia.
Qed.

Lemma strictly_sorted_unique (l1 l2 : list Note) :
  StronglySorted (fun a b => (n_created_at b < n_created_at a)%Z) l1 ->
  StronglySorted (fun a b => (n_created_at b < n_created_at a)%Z) l2 ->
  Permutation l1 l2 -> l1 = l2.
Proof.
  revert l2; induction l1 as [|a l1 IH]; intros l2 H1 H2 Hp.
  - apply Permutation_nil in Hp. now subst.
  - destruct l2 as [|b l2];
      [apply Permutation_sym, Permutation_nil in Hp; discriminate|].
    inversion H1 as [|? ? H1' Hall1]; subst.
    inversion H2 as [|? ? H2' Hall2]; subst.
    rewrite Forall_forall in Hall1, Hall2.
    assert (Hab : a = b).
    { assert (Ha : In a (b :: l2))
        by (apply (Permutation_in _ Hp); now left).
      assert (Hb : In b (a :: l1))
        by (apply (Permutation_in _ (Permutation_sym Hp)); now left).
      destruct Ha as [Ha | Ha]; [now symmetry|].
      destruct Hb as [Hb | Hb]; [assumption|].
      pose proof (Hall2 a Ha). pose proof (Hall1 b Hb). lia. }
    subst b. f_equal. apply IH; try assumption.
    now apply Permutation_cons_inv in Hp.
Qed.

Lemma insert_row_permutation {A : Type} (le : A -> A -> bool) x l :
  Permutation (Sql.insert_row le x l) (x :: l).
Proof.
  induction l as [|y l IH]; cbn; [reflexivity|].
  destruct (le x y); [reflexivity|].
  rewrite IH. apply perm_swap.
Qed.

Lemma order_by_permutation {A : Type} (le : A -> A -> bool) l :
  Permutation (Sql.order_by le l) l.
Proof.
  unfold Sql.order_by. induction l as [|x l IH]; cbn; [reflexivity|].
  rewrite insert_row_permutation. now constructor.
Qed.

Lemma newest_first_strongly_sorted (l : list Note) :
  Sorted (fun a b => newest_first a b = true) l ->
  StronglySorted (fun a b => (n_created_at b <= n_created_at a)%Z) l.
Proof.
  intros Hs. apply Sorted_StronglySorted.
  - intros a b c Hab Hbc. cbv beta in *. lia.
  - apply sorted_weaken with (R := fun a b => newest_first a b = true);
      [|exact Hs].
    intros a b Hab. unfold newest_first in Hab. now apply Z.leb_le.
Qed.

Lemma order_by_newest_first_unique (l ordered : list Note) :
  NoDup (map n_created_at l) ->
  Permutation l ordered ->
  Sorted (fun a b => newest_first a b = true) ordered ->
  ordered = Sql.order_by newest_first l.
Proof.
  intros Hnd Hp Hs.
  apply strictly_sorted_unique.
  - apply sorted_distinct_strict; [|now apply newest_first_strongly_sorted].
    eapply Permutation_NoDup; [apply Permutation_map; exact Hp | exact Hnd].
  - apply sorted_distinct_strict.
    + eapply Permutation_NoDup;
        [apply Permutation_map, Permutation_sym, order_by_permutation
        | exact Hnd].
    + apply newest_first_strongly_sorted, order_by_sorted.
      intros a b Hab. unfold newest_first in *.
      apply Z.leb_le. apply Z.leb_gt in Hab. lia.
  - rewrite <- Hp. symmetry. apply order_by_permutation.
Qed.

(** X17. Take a contact whose notes, the new one included, have pairwise
    distinct creation times, so that their order by time is determined.
    Inserting a note for another contact leaves the composed text of this
    one as it is, and so does inserting a note for this contact when it
    already has five notes created later: only the five most recent notes
    enter the text. The stored fingerprint then still matches, so the
    next batch run skips the contact. The order used is the only one
    there is: every sorted arrangement of the contact's notes is the one
    the composer reads. *)
Theorem old_note_leaves_text w db n cid tbl :
  distinct_note_times (add_note db n) cid ->
  n_contact_id n <> cid
  \/ 5 <= List.length (notes_since db cid (n_created_at n)) ->
  generate_embedding_content (add_note db n) cid
  = generate_embedding_content db cid
  /\ fresh w (add_note db n) cid tbl = fresh w db cid tbl
  /\ (forall ordered,
         Permutation (notes_of (add_note db n) cid) ordered ->
         Sorted (fun a b => newest_first a b = true) ordered ->
         ordered = Sql.order_by newest_first (notes_of (add_note db n) cid)).
Proof.
  intros Hd H.
  assert (E : generate_embedding_content (add_note db n) cid
              = generate_embedding_content db cid).
  { unfold generate_embedding_content, add_note;
      cbn [contacts contact_metadata notes tags contact_tags].
    rewrite filter_app. cbn [filter].
    destruct (String.eqb_spec (n_contact_id n) cid) as [Heq | Hne].
    - destruct H as [H | H]; [contradiction|].
      unfold notes_since in H.
      destruct (order_by_newest_first_append
                  (filter (fun n0 => n_contact_id n0 =? cid) (notes db)) n)
        as (pre & post & Hn & Hl & _ & _ & Hlen).
      assert (Hge : 5 <= List.length pre).
      { rewrite Hlen. etransitivity; [exact H|].
        apply filter_length_le. intros m Hm.
        apply Z.ltb_lt in Hm. apply Z.leb_le. lia. }
      rewrite Hn, Hl, !firstn_app_left by exact Hge. reflexivity.
    - now rewrite app_nil_r. }
  split; [exact E|]. split.
  - unfold fresh, content_of. now rewrite E.
  - intros ordered Hp Hs. now apply order_by_newest_first_unique.
Qed.

Lemma old_note_leaves_text_witness :
  let db5 := mkDatabase (contacts Sample.db) []
               [ mkNote "c1" "n1" 11; mkNote "c1" "n2" 12; mkNote "c1" "n3" 13;
                 mkNote "c1" "n4" 14; mkNote "c1" "n5" 15 ]%Z [] [] in
  generate_embedding_content (add_note db5 (mkNote "c1" "an old one" 3%Z)) "c1"
  = generate_embedding_content db5 "c1"
  /\ fresh Sample.world (add_note db5 (mkNote "c1" "an old one" 3%Z)) "c1" []
     = fresh Sample.world db5 "c1" [].
Proof.
  cbn zeta.
  destruct (old_note_leaves_text Sample.world
              (mkDatabase (contacts Sample.db) []
                 [ mkNote "c1" "n1" 11; mkNote "c1" "n2" 12; mkNote "c1" "n3" 13;
                   mkNote "c1" "n4" 14; mkNote "c1" "n5" 15 ]%Z [] [])
              (mkNote "c1" "an old one" 3%Z) "c1" [])
    as (H1 & H2 & _).
  - unfold distinct_note_times. cbn.
    repeat constructor; cbn; intuition discriminate.
  - right. vm_compute. lia.
  - split; [exact H1 | exact H2].
Defined.

Example new_note_changes_text :
  generate_embedding_content
    (add_note Sample.db (mkNote "c1" "moved to Oslo" 9%Z)) "c1"
  = "Ann moved to Oslo likes tea met at the fair friend".
Proof. reflexivity. Qed.

(* ------------------------------------------------------------------ *)
(** ** Requests in succession, unknown contacts, error entries *)

Lemma results_eta r p c u s e :
  processed r = p -> created r = c -> updated r = u -> skipped r = s ->
  errors r = e -> r = mkResults p c u s e.
Proof. destruct r; cbn; intros; subst; reflexivity. Qed.

(** X18. Sending the same authenticated request twice in succession,
    with no change to the contacts in between: if the first answer reports
    no error, the second answer is 200 with every selected id skipped and
    nothing processed, created or updated; it leaves the store as the first
    left it and does not call the provider. *)
Theorem repeated_request_is_free w db req tbl userId b :
  authenticate w req = inr userId ->
  json req = inr b ->
  unique_contact_id tbl ->
  errors (results (snd (handle_generate_embeddings w db req tbl))) = [] ->
  let first := snd (handle_generate_embeddings w db req tbl) in
  let second := handle_generate_embeddings w db req (table first) in
  fst second
  = inr (mkResponse 200
           (EmbeddingsBodyOk true
              (mkResults 0 0 0
                 (List.length (contact_ids_of db userId b)) [])))
  /\ table (snd second) = table first
  /\ provider_calls (calls (snd second)) = [].
Proof.
  intros Ha Hb Hu Herr; cbn zeta.
  unfold handle_generate_embeddings in *.
  rewrite (serve_generate_embeddings_run w db req
             (mkState tbl empty_results []) userId b Ha Hb) in *.
  cbn [fst snd] in *.
  set (ids := contact_ids_of db userId b) in *.
  set (st1 := steps w db userId ids (mkState tbl empty_results [])) in *.
  assert (Hs : forall c, In c ids -> settled w db c (table st1)).
  { apply steps_settle; [exact Hu|]. fold st1. now rewrite Herr. }
  rewrite (serve_generate_embeddings_run w db req
             (mkState (table st1) empty_results []) userId b Ha Hb).
  cbn [fst snd]. fold ids.
  pose proof (steps_settled w db userId ids
                (mkState (table st1) empty_results []) Hs) as H.
  cbn zeta in H; cbn [table results calls] in H.
  destruct H as (T & P & C & U & S & E & PC).
  repeat split; try assumption.
  do 3 f_equal. apply results_eta; try assumption. rewrite S. cbn. lia.
Qed.

Lemma repeated_request_is_free_witness :
  let req := mkRequest "POST" (Some "Bearer alice-token")
               (inr (mkEmbeddingsBody None (Some 2%Z))) in
  let first := snd (handle_generate_embeddings Sample.world Sample.db req []) in
  let second := handle_generate_embeddings Sample.world Sample.db req
                  (table first) in
  fst second
  = inr (mkResponse 200
           (EmbeddingsBodyOk true
              (mkResults 0 0 0
                 (List.length
                    (contact_ids_of Sample.db Sample.alice
                       (mkEmbeddingsBody None (Some 2%Z)))) [])))
  /\ table (snd second) = table first
  /\ provider_calls (calls (snd second)) = [].
Proof.
  cbn zeta.
  apply (repeated_request_is_free Sample.world Sample.db
           (mkRequest "POST" (Some "Bearer alice-token")
              (inr (mkEmbeddingsBody None (Some 2%Z))))
           [] Sample.alice (mkEmbeddingsBody None (Some 2%Z))).
  - vm_compute; reflexivity.
  - reflexivity.
  - constructor.
  - vm_compute; reflexivity.
Defined.

(** X19. A request for one contact id that matches no contact (the
    foreign keys of notes and tag links being in force) is not an error:
    the answer is 200 with [skipped = 1] and every other counter at zero,
    the composer is the only thing called, and the store is left as it
    is. *)
Theorem unknown_contact_is_skipped w db req tbl userId cid n :
  authenticate w req = inr userId ->
  json req = inr (mkEmbeddingsBody (Some cid) n) ->
  cid <> "" ->
  references_contacts db ->
  (forall c, In c (contacts db) -> c_id c <> cid) ->
  handle_generate_embeddings w db req tbl
  = (inr (mkResponse 200 (EmbeddingsBodyOk true (mkResults 0 0 0 1 []))),
     mkState tbl (mkResults 0 0 0 1 []) [EvCompose cid]).
Proof.
  intros Ha Hb Hne Hfk Habs. unfold handle_generate_embeddings.
  rewrite (serve_generate_embeddings_run w db req _ userId _ Ha Hb).
  rewrite (single_contact_taken_as_is db userId cid n Hne).
  rewrite steps_cons, steps_nil. unfold step.
  rewrite process_contact_empty; [reflexivity|].
  unfold content_of. now apply generate_embedding_content_absent.
Qed.

Lemma unknown_contact_is_skipped_witness :
  handle_generate_embeddings Sample.world Sample.db
    (mkRequest "POST" (Some "Bearer alice-token")
       (inr (mkEmbeddingsBody (Some "nobody") None)))
    Sample.stored_cat
  = (inr (mkResponse 200 (EmbeddingsBodyOk true (mkResults 0 0 0 1 []))),
     mkState Sample.stored_cat (mkResults 0 0 0 1 []) [EvCompose "nobody"]).
Proof.
  apply (unknown_contact_is_skipped Sample.world Sample.db _ _ Sample.alice
           "nobody" None).
  - vm_compute; reflexivity.
  - reflexivity.
  - discriminate.
  - split.
    + intros n Hn. cbn in Hn.
      destruct Hn as [<- | [<- | []]];
        exists (Sample.person "c1" Sample.alice "Ann" None);
        (split; [left; reflexivity | reflexivity]).
    + intros ct Hct. cbn in Hct. destruct Hct as [<- | []].
      exists (Sample.person "c1" Sample.alice "Ann" None).
      split; [left; reflexivity | reflexivity].
  - intros c Hc. cbn in Hc.
    repeat (destruct Hc as [<- | Hc]; [discriminate|]). contradiction.
Defined.

(** X20. Every entry of the error list of a batch run reads
    "<id>: <message>" for a contact of the id list that has text, where
    the message is the one the provider threw on that text or the one the
    store returned for the upsert of that contact's payload; and the error
    list never holds more entries than there are ids. *)
Theorem error_entries_name_their_cause w db userId ids tbl e :
  In e (errors (results (snd (run_batch w db userId ids tbl)))) ->
  exists cid message,
    In cid ids
    /\ e = cid ++ ": " ++ message
    /\ content_of db cid <> ""
    /\ (embedding_of w (content_of db cid) = inl message
        \/ exists v stored,
             embedding_of w (content_of db cid) = inr v
             /\ store_verdict w stored (payload_of w db userId cid v)
                = Some message).
Proof.
  rewrite run_batch_steps. revert e.
  apply (steps_invariant w db userId ids
           (fun st => forall e, In e (errors (results st)) -> _)).
  - intros cid st st' Hcid Hit HP e.
    inversion Hit; subst; cbn [results errors incr_skipped push_error
                                 incr_processed];
      try (now apply HP).
    + intros Hin. apply in_app_or in Hin as [Hin | [<- | []]]; [now apply HP|].
      exists cid, message. repeat split; try assumption. now left.
    + intros Hin. apply in_app_or in Hin as [Hin | [<- | []]]; [now apply HP|].
      exists cid, message. repeat split; try assumption.
      right. now exists v, (table st).
    + destruct (existing_of cid (table st)); cbn; now apply HP.
  - intros e [].
Qed.

Lemma error_entries_name_their_cause_witness :
  exists cid message,
    In cid ["c2"; "c3"]
    /\ "c3: OpenAI API error: Too Many Requests" = cid ++ ": " ++ message
    /\ content_of Sample.db cid <> ""
    /\ (embedding_of Sample.world (content_of Sample.db cid) = inl message
        \/ exists v stored,
             embedding_of Sample.world (content_of Sample.db cid) = inr v
             /\ store_verdict Sample.world stored
                  (payload_of Sample.world Sample.db Sample.alice cid v)
                = Some message).
Proof.
  apply (error_entries_name_their_cause Sample.world Sample.db Sample.alice
           ["c2"; "c3"] [] "c3: OpenAI API error: Too Many Requests").
  vm_compute. left; reflexivity.
Defined.

(* ------------------------------------------------------------------ *)
(** ** Writing a record and reading it back *)

Lemma select_existing_run cid st :
  select_existing cid st
  = (inr (existing_of cid (table st)),
     mkState (table st) (results st) (calls st ++ [EvSelectEmbedding cid])%list).
Proof. reflexivity. Qed.

Lemma existing_some_existsb cid tbl r :
  existing_of cid tbl = Some r -> existsb (same_contact cid) tbl = true.
Proof.
  unfold existing_of. intros H. apply single_some in H.
  destruct (existsb (same_contact cid) tbl) eqn:E; [reflexivity|].
  apply existsb_filter_nil in E. congruence.
Qed.

(** An upsert for a contact that has a record is rejected: as a
    duplicate, unless the store objects for another reason. *)
Lemma store_verdict_recorded w tbl p old :
  existing_of (p_contact_id p) tbl = Some old ->
  exists message,
    store_verdict w tbl p = Some message
    /\ (upsert_error w tbl p = None -> message = duplicate_contact_id).
Proof.
  intros H. apply existing_some_existsb in H.
  unfold store_verdict. rewrite H.
  destruct (upsert_error w tbl p) as [m|].
  - exists m. split; [reflexivity | discriminate].
  - exists duplicate_contact_id. split; reflexivity.
Qed.

(** X21. Reading a contact's record right after an upsert. An upsert is
    accepted only for a contact that had no record; the row of the
    payload is then added, and the read returns it: the scope id, vector,
    fingerprint and source text of the payload, with the model version
    "text-embedding-ada-002". After a rejected upsert the table, and so
    the record read, is what it was. An upsert for a contact that already
    has a record is always rejected (as a duplicate key, unless the store
    objects for another reason), so the read returns the old record:
    nothing is replaced. *)
Theorem upsert_then_select w p st :
  let written := upsert w p st in
  let read := fst (select_existing (p_contact_id p) (snd written)) in
  (store_verdict w (table st) p = None ->
   fst written = inr None
   /\ existing_of (p_contact_id p) (table st) = None
   /\ table (snd written) = (table st ++ [inserted_row p])%list
   /\ read = inr (Some (inserted_row p))
   /\ stored_from p (inserted_row p)
   /\ model_version (inserted_row p) = Some default_model_version)
  /\ (forall message,
         store_verdict w (table st) p = Some message ->
         fst written = inr (Some message)
         /\ table (snd written) = table st
         /\ read = inr (existing_of (p_contact_id p) (table st)))
  /\ (forall old,
         existing_of (p_contact_id p) (table st) = Some old ->
         exists message,
           fst written = inr (Some message)
           /\ (upsert_error w (table st) p = None ->
               message = duplicate_contact_id)
           /\ table (snd written) = table st
           /\ read = inr (Some old)).
Proof.
  cbn zeta. rewrite upsert_run. split; [|split].
  - intros Hok. rewrite Hok. cbn [fst snd table].
    pose proof (accepted_unrecorded w _ _ Hok) as Hnone.
    apply store_verdict_none in Hok as [_ Habs].
    split; [reflexivity|]. split; [exact Hnone|]. split; [reflexivity|].
    split; [|split; [apply stored_from_inserted | reflexivity]].
    rewrite select_existing_run. cbn [fst table].
    now rewrite existing_of_upsert_same.
  - intros message Hko. rewrite Hko. cbn [fst snd table].
    repeat split.
  - intros old Hold.
    destruct (store_verdict_recorded w (table st) p old Hold)
      as (message & Hv & Hdup).
    exists message. rewrite Hv. cbn [fst snd table].
    split; [reflexivity|]. split; [exact Hdup|]. split; [reflexivity|].
    rewrite select_existing_run. cbn [fst table]. now rewrite Hold.
Qed.

Lemma upsert_then_select_witness :
  let p := mkEmbeddingPayload "c3" Sample.bob [1; 0]%Q "ff" "Cat!" in
  let first := upsert Sample.world p (mkState [] empty_results []) in
  let again := upsert Sample.world p (snd first) in
  (fst first = inr None
   /\ fst (select_existing "c3" (snd first)) = inr (Some (inserted_row p)))
  /\ (fst again = inr (Some duplicate_contact_id)
      /\ table (snd again) = table (snd first)).
Proof.
  cbn zeta. split.
  - destruct (proj1 (upsert_then_select Sample.world
                       (mkEmbeddingPayload "c3" Sample.bob [1; 0]%Q "ff" "Cat!")
                       (mkState [] empty_results [])) eq_refl)
      as (H1 & _ & _ & H2 & _).
    split; [exact H1 | exact H2].
  - destruct (upsert_then_select Sample.world
                (mkEmbeddingPayload "c3" Sample.bob [1; 0]%Q "ff" "Cat!")
                (snd (upsert Sample.world
                        (mkEmbeddingPayload "c3" Sample.bob [1; 0]%Q "ff" "Cat!")
                        (mkState [] empty_results []))))
      as (_ & Hrejected & _).
    destruct (Hrejected duplicate_contact_id eq_refl) as (H1 & H2 & _).
    split; [exact H1 | exact H2].
Defined.

(** X22. A contact whose text has changed since it was embedded is not
    embedded again. If the contact has a record whose fingerprint is not
    the one of its current text and the provider answers, a run on that
    contact calls the provider, issues the upsert and has it rejected (as
    a duplicate key, unless the store objects for another reason); the
    run reports the rejection as the contact's error, with nothing
    processed, created, updated or skipped, and leaves the table as it
    was. In no run (with no other writer at work) is a contact counted as
    updated. *)
Theorem stale_record_is_kept w db userId :
  (forall cid tbl v old,
      content_of db cid <> "" ->
      embedding_of w (content_of db cid) = inr v ->
      existing_of cid tbl = Some old ->
      content_hash old <> generateHash w (content_of db cid) ->
      let out := snd (run_batch w db userId [cid] tbl) in
      exists message,
        results out = mkResults 0 0 0 0 [cid ++ ": " ++ message]
        /\ (upsert_error w tbl (payload_of w db userId cid v) = None ->
            message = duplicate_contact_id)
        /\ table out = tbl
        /\ calls out = [EvCompose cid; EvSelectEmbedding cid;
                        EvProvider (content_of db cid);
                        EvUpsert (payload_of w db userId cid v)])
  /\ (forall ids tbl,
         updated (results (snd (run_batch w db userId ids tbl))) = 0).
Proof.
  split.
  - intros cid tbl v old Hc He Hold Hstale; cbn zeta.
    rewrite run_batch_steps, steps_cons, steps_nil. unfold step.
    destruct (store_verdict_recorded w tbl (payload_of w db userId cid v) old)
      as (message & Hv & Hdup); [exact Hold|].
    exists message.
    rewrite (process_contact_store_error w db userId cid
               (mkState tbl empty_results []) v message Hc); cbn [snd table];
      [| | exact He | exact Hv].
    + repeat split. exact Hdup.
    + unfold fresh, up_to_date. rewrite Hold. now apply String.eqb_neq.
  - intros ids tbl. rewrite run_batch_steps.
    apply (steps_invariant w db userId ids
             (fun st => updated (results st) = 0)); [|reflexivity].
    intros cid st st' _ Hit HP.
    inversion Hit; subst; cbn [results]; try exact HP.
    match goal with
    | H : store_verdict _ _ _ = None |- _ =>
        apply accepted_unrecorded in H; cbn [payload_of p_contact_id] in H;
        rewrite H
    end.
    exact HP.
Qed.

Lemma stale_record_is_kept_witness :
  let stale := [ mkContactEmbedding "c2" Sample.alice [0; 1]%Q "00"
                   (Some "Ben") (Some default_model_version) ] in
  let out := snd (run_batch Sample.world Sample.db Sample.alice ["c2"] stale) in
  results out = mkResults 0 0 0 0 ["c2" ++ ": " ++ duplicate_contact_id]
  /\ table out = stale.
Proof.
  cbn zeta.
  destruct (proj1 (stale_record_is_kept Sample.world Sample.db Sample.alice)
              "c2"
              [ mkContactEmbedding "c2" Sample.alice [0; 1]%Q "00"
                  (Some "Ben") (Some default_model_version) ]
              (Sample.vector_of "Ben Oslo")
              (mkContactEmbedding "c2" Sample.alice [0; 1]%Q "00"
                 (Some "Ben") (Some default_model_version)))
    as (message & Hr & Hm & Ht & _).
  - vm_compute; discriminate.
  - reflexivity.
  - reflexivity.
  - vm_compute; discriminate.
  - rewrite (Hm eq_refl) in Hr. split; [exact Hr | exact Ht].
Defined.
